(* ==================================================================== *)
(* AdaptAE: a single-hidden-layer autoencoder whose output weights are   *)
(* learned in closed form and updated recursively (src/models/adaptae.py *)
(* with assert_cond, evaluate and exit_with_error of src/util/util.py    *)
(* and the argument checks of train-ps-elm-ae.py).                       *)
(*                                                                       *)
(* Tensors are matrices over an arbitrary real field F (exact            *)
(* arithmetic); torch.tanh is a parameter of the development, since no   *)
(* property below depends on the shape of the nonlinearity.  The class   *)
(* is embedded twice:                                                    *)
(*   - as the code has it: tensors carry their shape at run time, every  *)
(*     torch operation checks shapes and may raise, and the methods run  *)
(*     in a state-and-exception monad over the object and the log;       *)
(*   - as the spec words it: typed matrix formulas (woodbury, sherman,   *)
(*     rls_beta), to which the code is related by the run lemmas.        *)
(* ==================================================================== *)

Set Warnings "-notation-overridden,-ambiguous-paths,-notation-incompatible-prefix,-deprecated".
From HB Require Import structures.
From Stdlib Require Import String.
From mathcomp Require Import boot order algebra.
Set Implicit Arguments.
Unset Strict Implicit.
Unset Printing Implicit Defensive.
Import GRing.Theory Num.Theory Order.TTheory.
Local Open Scope string_scope.
Local Open Scope ring_scope.

(* -------------------------------------------------------------------- *)
(* Python exceptions and the result of a torch operation.                *)
(* NonFinite is not an exception: it marks a floating-point result that  *)
(* holds inf or nan (a quotient by a zero entry), which no element of F  *)
(* stands for; the embedding does not follow the execution further.      *)

Inductive exn :=
  | ValueError of string
  | RuntimeError of string
  | AssertionError of string.

Inductive result (A : Type) :=
  | Ok of A
  | Raise of exn
  | NonFinite.
Arguments Ok {A} _.
Arguments Raise {A} _.
Arguments NonFinite {A}.

(* what torch raises when the shapes of the operands do not fit *)
Definition shape_error : exn := RuntimeError "shape mismatch".

(* size of one dimension of a broadcast, when the two sizes are compatible *)
Definition bdim (a b : nat) : option nat :=
  if a == b then Some a
  else if a == 1%N then Some b
  else if b == 1%N then Some a
  else None.

(* rewriting rules that expand a matrix expression into monomials *)
Definition mxnf := (mulmxDl, mulmxDr, mulmxBl, mulmxBr, mul1mx, mulmx1, mulmxA).

Section Definitions.
Variable F : realFieldType.

(* -------------------------------------------------------------------- *)
(* Matrix notions of the spec.                                           *)

Definition symmetric n (A : 'M[F]_n) : Prop := A^T = A.

Definition psd n (A : 'M[F]_n) : Prop :=
  forall x : 'rV[F]_n, 0 <= (x *m A *m x^T) 0 0.

(* squared Frobenius norm *)
Definition sqnorm m n (A : 'M[F]_(m, n)) : F := \tr (A *m A^T).

(* The four Penrose equations: X is the Moore-Penrose inverse of A. *)
Record penrose m n (A : 'M[F]_(m, n)) (X : 'M[F]_(n, m)) : Prop := Penrose {
  pen_AXA : A *m X *m A = A;
  pen_XAX : X *m A *m X = X;
  pen_AX : (A *m X)^T = A *m X;
  pen_XA : (X *m A)^T = X *m A
}.

(* torch.linalg.pinv in exact arithmetic: the Moore-Penrose inverse, built
   from a full-rank factorisation A = B C (B with independent columns, C
   with independent rows) as C^T (C C^T)^-1 (B^T B)^-1 B^T.  Lemmas pinvP
   and penrose_uniq show that it is the one matrix satisfying the Penrose
   equations.  The definition is sealed so that rewriting never unfolds it. *)
Definition pinv_def m n (A : 'M[F]_(m, n)) : 'M[F]_(n, m) :=
  let B := col_base A in
  let C := row_base A in
  C^T *m invmx (C *m C^T) *m invmx (B^T *m B) *m B^T.

Definition pinv_key : unit. Proof. exact: tt. Qed.
Definition pinv := locked_with pinv_key pinv_def.
Canonical pinv_unlockable := [unlockable fun pinv].

(* Spec 4.3, batch mode, in the spec's words:
     HPHt_I_inv = pinv(H P Ht + I_n)
     P    <- P - P Ht . HPHt_I_inv . H P
     Beta <- Beta + P Ht (data - H Beta)        (with the new P)        *)
Definition innov h n (P : 'M[F]_h) (H : 'M[F]_(n, h)) : 'M[F]_n :=
  H *m (P *m H^T) + 1%:M.

Definition woodbury h n (P : 'M[F]_h) (H : 'M[F]_(n, h)) : 'M[F]_h :=
  P - P *m H^T *m pinv (innov P H) *m (H *m P).

Definition rls_beta h d n (P' : 'M[F]_h) (B : 'M[F]_(h, d))
    (H : 'M[F]_(n, h)) (X : 'M[F]_(n, d)) : 'M[F]_(h, d) :=
  B + P' *m H^T *m (X - H *m B).

(* Spec 4.4, sample mode, in the spec's words, for one hidden row H:
     denom = 1 + H P Ht
     P    <- P - (P Ht H P) / denom
   The formula stands for the code only where denom is not zero: there
   the code's quotient is NonFinite (tdiv below), whereas the inverse of
   zero in F is zero.                                                    *)
Definition denom h (P : 'M[F]_h) (H : 'rV[F]_h) : F :=
  1 + (H *m (P *m H^T)) 0 0.

Definition sherman h (P : 'M[F]_h) (H : 'rV[F]_h) : 'M[F]_h :=
  P - (denom P H)^-1 *: (P *m H^T *m H *m P).

(* the gain P Ht (H P Ht + I)^-1 of a recursive least-squares step; used
   in the proofs only, and sealed like pinv *)
Definition gain_def h n (P : 'M[F]_h) (H : 'M[F]_(n, h)) : 'M[F]_(h, n) :=
  P *m H^T *m invmx (innov P H).

Definition gain_key : unit. Proof. exact: tt. Qed.
Definition gain := locked_with gain_key gain_def.
Canonical gain_unlockable := [unlockable fun gain].

(* a row b repeated m times: the broadcast of a bias over a batch *)
Definition rowbc m n (b : 'rV[F]_n) : 'M[F]_(m, n) := \matrix_(i, j) b 0 j.

(* the rows x1 .. xn stacked into the matrix [x1; ...; xn] *)
Fixpoint stack d (rows : seq 'rV[F]_d) : 'M[F]_(size rows, d) :=
  match rows return 'M[F]_(size rows, d) with
  | [::] => 0
  | x :: rows' => col_mx x (stack rows')
  end.

(* -------------------------------------------------------------------- *)
(* torch tensors of rank 2: the shape is data, not a type.  The bias,    *)
(* of rank 1 and length n in the source, is the 1 x n tensor it          *)
(* broadcasts as.                                                        *)

Record Tensor := mkT { nrows : nat; ncols : nat; tval : 'M[F]_(nrows, ncols) }.

(* torch.matmul *)
Definition matmul (a b : Tensor) : result Tensor :=
  match @eqP _ (ncols a) (nrows b) with
  | ReflectT e => Ok (mkT (tval a *m castmx (esym e, erefl) (tval b)))
  | ReflectF _ => Raise shape_error
  end.

(* a.T, torch.eye(n), f applied entrywise, torch.linalg.pinv *)
Definition transpose (a : Tensor) : Tensor := mkT (tval a)^T.
Definition eye (n : nat) : Tensor := mkT (1%:M : 'M[F]_n).
Definition tmap (f : F -> F) (a : Tensor) : Tensor := mkT (map_mx f (tval a)).
Definition torch_pinv (a : Tensor) : Tensor := mkT (pinv (tval a)).

(* entry (i, j), and the view of a tensor at a broadcast shape: a
   dimension of size 1 is read at index 0 *)
Definition tget (a : Tensor) (i j : nat) : F :=
  match insub i, insub j with
  | Some i', Some j' => tval a i' j'
  | _, _ => 0
  end.

Definition expand (a : Tensor) (r c : nat) : 'M[F]_(r, c) :=
  \matrix_(i, j) tget a (if nrows a == 1%N then 0%N else i)
                        (if ncols a == 1%N then 0%N else j).

Definition broadcast2 (op : F -> F -> F) (a b : Tensor) : result Tensor :=
  match bdim (nrows a) (nrows b), bdim (ncols a) (ncols b) with
  | Some r, Some c =>
      Ok (mkT (\matrix_(i, j) op (expand a r c i j) (expand b r c i j)))
  | _, _ => Raise shape_error
  end.

(* a + b and a - b *)
Definition tadd : Tensor -> Tensor -> result Tensor := broadcast2 +%R.
Definition tsub : Tensor -> Tensor -> result Tensor :=
  broadcast2 (fun x y => x - y).

(* torch.div(a, b): entrywise quotient; a zero divisor gives inf or nan *)
Definition tdiv (a b : Tensor) : result Tensor :=
  match bdim (nrows a) (nrows b), bdim (ncols a) (ncols b) with
  | Some r, Some c =>
      if [forall i, forall j, expand b r c i j != 0]
      then Ok (mkT (\matrix_(i, j) (expand a r c i j / expand b r c i j)))
      else NonFinite
  | _, _ => Raise shape_error
  end.

(* c + a for a Python number c *)
Definition scalar_add (c : F) (a : Tensor) : Tensor :=
  mkT (map_mx (fun x => c + x) (tval a)).

(* a += b and a -= b: b is broadcast to the shape of a, which is kept *)
Definition inplace (op : F -> F -> F) (a b : Tensor) : result Tensor :=
  if (bdim (nrows a) (nrows b) == Some (nrows a))
     && (bdim (ncols a) (ncols b) == Some (ncols a))
  then Ok (mkT (\matrix_(i, j)
                  op (tval a i j) (expand b (nrows a) (ncols a) i j)))
  else Raise shape_error.
Definition iadd := inplace +%R.
Definition isub := inplace (fun x y => x - y).

(* -------------------------------------------------------------------- *)
(* The object, the log of the logging module, and the monad of methods.  *)

Record AdaptAE := mkAdaptAE {
  __name : string;
  __n_input_nodes : nat;
  __n_hidden_nodes : nat;
  __activation_func : F -> F;
  __alpha : Tensor;
  __bias : Tensor;
  __p : Tensor;
  __beta : Tensor;
  __device : string
}.

Record world := World { self : AdaptAE; logged : seq string }.

(* How a method ends: it returns a value, or raises, in both cases leaving
   the object in some state (a raised exception leaves the object as it
   was when it was raised); or a tensor became non-finite and the run is
   not followed further. *)
Inductive outcome (A : Type) :=
  | Done of A & world
  | Failed of exn & world
  | Lost.
Arguments Done {A} _ _.
Arguments Failed {A} _ _.
Arguments Lost {A}.

Definition M (A : Type) : Type := world -> outcome A.

Definition ret A (a : A) : M A := fun w => Done a w.
Definition raise A (e : exn) : M A := fun w => Failed e w.
Arguments raise {A} e.
Definition lift A (r : result A) : M A :=
  fun w => match r with
           | Ok a => Done a w
           | Raise e => Failed e w
           | NonFinite => Lost
           end.
Definition bind A B (m : M A) (k : A -> M B) : M B :=
  fun w => match m w with
           | Done a w' => k a w'
           | Failed e w' => Failed e w'
           | Lost => Lost
           end.
Definition try_except A (m : M A) (handler : exn -> M A) : M A :=
  fun w => match m w with
           | Failed e w' => handler e w'
           | r => r
           end.

(* the state in which a call leaves the object *)
Definition final A (o : outcome A) : option world :=
  match o with
  | Done _ w => Some w
  | Failed _ w => Some w
  | Lost => None
  end.

Notation "x <- m ;; k" := (bind m (fun x => k))
  (at level 100, m at next level, right associativity).
Notation "m ;; k" := (bind m (fun _ => k))
  (at level 100, right associativity).

Definition get_self : M AdaptAE := fun w => Done (self w) w.
Definition set_p (t : Tensor) : M unit :=
  fun w => let s := self w in
    Done tt (World (mkAdaptAE (__name s) (__n_input_nodes s)
                      (__n_hidden_nodes s) (__activation_func s) (__alpha s)
                      (__bias s) t (__beta s) (__device s)) (logged w)).
Definition set_beta (t : Tensor) : M unit :=
  fun w => let s := self w in
    Done tt (World (mkAdaptAE (__name s) (__n_input_nodes s)
                      (__n_hidden_nodes s) (__activation_func s) (__alpha s)
                      (__bias s) (__p s) t (__device s)) (logged w)).
Definition logging_error (msg : string) : M unit :=
  fun w => Done tt (World (self w) (rcons (logged w) msg)).

(* util.assert_cond: the assert statement inside a try whose handler logs
   the AssertionError and raises it again *)
Definition py_assert (condition : bool) (msg : string) : M unit :=
  if condition then ret tt else raise (AssertionError msg).

Definition assert_cond (condition : bool) (msg : string) : M unit :=
  try_except (py_assert condition msg)
    (fun e => if e is AssertionError m then (logging_error m ;; raise e)
              else raise e).

(* -------------------------------------------------------------------- *)
(* class AdaptAE.  The constructor draws alpha (then made orthogonal)    *)
(* and bias (then normalised) at random: the two drawn values are its    *)
(* arguments alpha0 and bias0.                                           *)

Variable torch_tanh : F -> F.

Definition __init__ (activation_func : string)
    (n_input_nodes n_hidden_nodes : nat) (device : string)
    (alpha0 : 'M[F]_(n_input_nodes, n_hidden_nodes))
    (bias0 : 'rV[F]_n_hidden_nodes) : result AdaptAE :=
  if String.eqb activation_func "tanh" then
    Ok {| __name := "AdaptAE";
          __n_input_nodes := n_input_nodes;
          __n_hidden_nodes := n_hidden_nodes;
          __activation_func := torch_tanh;
          __alpha := mkT alpha0;
          __bias := mkT bias0;
          __p := mkT (0 : 'M[F]_(n_hidden_nodes, n_hidden_nodes));
          __beta := mkT (0 : 'M[F]_(n_hidden_nodes, n_input_nodes));
          __device := device |}
  else Raise (ValueError "Activation function not supported").

(* self.__activation_func(torch.matmul(data, self.__alpha) + self.__bias),
   the first line of predict, init_phase, seq_phase and
   encoded_representation *)
Definition hidden_layer (data : Tensor) : M Tensor :=
  s <- get_self ;;
  xa <- lift (matmul data (__alpha s)) ;;
  z <- lift (tadd xa (__bias s)) ;;
  ret (tmap (__activation_func s) z).

Definition predict (test_data : Tensor) : M Tensor :=
  H <- hidden_layer test_data ;;
  s <- get_self ;;
  lift (matmul H (__beta s)).

Definition init_phase (data : Tensor) : M Tensor :=
  s <- get_self ;;
  assert_cond (ncols data == __n_input_nodes s)
    "Input data shape does not match the input nodes" ;;
  H <- hidden_layer data ;;
  assert_cond (ncols H == __n_hidden_nodes s)
    "Hidden layer shape does not match the hidden nodes" ;;
  assert_cond (nrows H == nrows data)
    "Hidden layer shape does not match number of samples" ;;
  HtH <- lift (matmul (transpose H) H) ;;
  set_p (torch_pinv HtH) ;;
  s <- get_self ;;
  pH_T <- lift (matmul (__p s) (transpose H)) ;;
  b <- lift (matmul pH_T data) ;;
  set_beta b ;;
  s <- get_self ;;
  ret (__beta s).

Definition calc_p_batch (batch_size : nat) (H : Tensor) : M unit :=
  s <- get_self ;;
  PH_T <- lift (matmul (__p s) (transpose H)) ;;
  let I := eye batch_size in
  PHt <- lift (matmul (__p s) (transpose H)) ;;
  HPHt <- lift (matmul H PHt) ;;
  S <- lift (tadd HPHt I) ;;
  let HPH_T_Inv := torch_pinv S in
  HP <- lift (matmul H (__p s)) ;;
  t1 <- lift (matmul PH_T HPH_T_Inv) ;;
  t2 <- lift (matmul t1 HP) ;;
  p' <- lift (isub (__p s) t2) ;;
  set_p p'.

Definition calc_beta_batch (batch H : Tensor) : M unit :=
  s <- get_self ;;
  HB <- lift (matmul H (__beta s)) ;;
  THB <- lift (tsub batch HB) ;;
  PHt <- lift (matmul (__p s) (transpose H)) ;;
  t <- lift (matmul PHt THB) ;;
  b' <- lift (iadd (__beta s) t) ;;
  set_beta b'.

Definition calc_p_sample (H : Tensor) : M unit :=
  s <- get_self ;;
  PH <- lift (matmul (__p s) H) ;;
  PHH_T <- lift (matmul PH (transpose H)) ;;
  PHH_TP <- lift (matmul PHH_T (__p s)) ;;
  PH' <- lift (matmul (__p s) H) ;;
  H_TPH <- lift (matmul (transpose H) PH') ;;
  q <- lift (tdiv PHH_TP (scalar_add 1 H_TPH)) ;;
  p' <- lift (isub (__p s) q) ;;
  set_p p'.

Definition calc_beta_sample (sample H : Tensor) : M unit :=
  s <- get_self ;;
  HtB <- lift (matmul (transpose H) (__beta s)) ;;
  THB <- lift (tsub sample HtB) ;;
  PH_T <- lift (matmul (__p s) H) ;;
  t <- lift (matmul PH_T THB) ;;
  b' <- lift (iadd (__beta s) t) ;;
  set_beta b'.

Definition seq_phase (data : Tensor) (mode : string) : M Tensor :=
  H <- hidden_layer data ;;
  s <- get_self ;;
  (if String.eqb mode "batch" then
     assert_cond (ncols H == __n_hidden_nodes s)
       "Hidden layer shape does not match the hidden nodes" ;;
     assert_cond (ncols data == __n_input_nodes s)
       "Input data shape does not match the input nodes" ;;
     let batch_size := nrows data in
     calc_p_batch batch_size H ;;
     calc_beta_batch data H
   else if String.eqb mode "sample" then
     assert_cond (ncols H == __n_hidden_nodes s)
       "Hidden layer shape does not match the hidden nodes" ;;
     calc_p_sample (transpose H) ;;
     calc_beta_sample data (transpose H)
   else raise (ValueError "Mode not supported")) ;;
  s <- get_self ;;
  ret (__beta s).

Definition encoded_representation (x : Tensor) : M Tensor := hidden_layer x.

(* the loop of train_sequential in train-ps-elm-ae.py, without its
   measurements: seq_phase on each delivered batch, in order *)
Fixpoint train_sequential (seq_loader : seq Tensor) (mode : string) : M unit :=
  if seq_loader is data :: rest then
    seq_phase data mode ;; train_sequential rest mode
  else ret tt.

(* -------------------------------------------------------------------- *)
(* Typed views: an object all of whose tensors have the shapes the       *)
(* constructor gives them, and the hidden representation of a batch.     *)

Definition model n_in n_hid (dev : string) (al : 'M[F]_(n_in, n_hid))
    (b : 'rV[F]_n_hid) (P : 'M[F]_n_hid) (B : 'M[F]_(n_hid, n_in)) : AdaptAE :=
  {| __name := "AdaptAE";
     __n_input_nodes := n_in;
     __n_hidden_nodes := n_hid;
     __activation_func := torch_tanh;
     __alpha := mkT al;
     __bias := mkT b;
     __p := mkT P;
     __beta := mkT B;
     __device := dev |}.

(* Spec 4.1: H = activation(data @ alpha + bias) *)
Definition project n_in n_hid (al : 'M[F]_(n_in, n_hid)) (b : 'rV[F]_n_hid)
    n (X : 'M[F]_(n, n_in)) : 'M[F]_(n, n_hid) :=
  map_mx torch_tanh (X *m al + rowbc n b).

(* sample-mode updates over a list of rows, as typed formulas *)
Fixpoint rls_rows n_in n_hid (al : 'M[F]_(n_in, n_hid)) (b : 'rV[F]_n_hid)
    (rows : seq 'rV[F]_n_in) (P : 'M[F]_n_hid) (B : 'M[F]_(n_hid, n_in))
    : 'M[F]_n_hid * 'M[F]_(n_hid, n_in) :=
  if rows is x :: rows' then
    let H := project al b x in
    let P1 := sherman P H in
    rls_rows al b rows' P1 (rls_beta P1 B H x)
  else (P, B).

(* the states an object is in when it is used as the spec prescribes: it
   is constructed, then init_phase and seq_phase are called on any
   tensors, sample mode on one row at a time (spec 4.4); a call that
   raises leaves the object it had reached.  (Sample mode on hidden_dim
   rows also returns; the states of an object used in any way at all are
   those of attainable, below.) *)
Inductive reachable : world -> Prop :=
  | reach_new act n_in n_hid dev al b m :
      @__init__ act n_in n_hid dev al b = Ok m -> reachable (World m [::])
  | reach_init_phase w data w' :
      reachable w -> final (init_phase data w) = Some w' -> reachable w'
  | reach_seq_phase w data mode w' :
      reachable w -> (mode = "sample" -> nrows data = 1%N) ->
      final (seq_phase data mode w) = Some w' -> reachable w'.

(* the object is well shaped and its P satisfies I *)
Definition state_inv (I : forall h, 'M[F]_h -> Prop) (w : world) : Prop :=
  exists n_in n_hid dev (al : 'M[F]_(n_in, n_hid)) b P B,
    self w = model dev al b P B /\ I n_hid P.

Definition sym_state : world -> Prop := state_inv symmetric.
Definition psd_state : world -> Prop := state_inv psd.
Definition wf : world -> Prop :=
  state_inv (fun h P => symmetric P /\ psd P).

End Definitions.

Arguments raise {F A} e.
Arguments Done {F A} _ _.
Arguments Failed {F A} _ _.
Arguments Lost {F A}.
Arguments __init__ {F} torch_tanh activation_func n_input_nodes n_hidden_nodes
  device alpha0 bias0.

(* -------------------------------------------------------------------- *)
(* A concrete instance over the rationals, used for closed examples: a   *)
(* squashing function in the place of tanh, two inputs, three hidden     *)
(* units.                                                                *)

Definition softsign (x : rat) : rat := x / (1 + `|x|).

Definition alpha_ex : 'M[rat]_(2, 3) := const_mx (1 / 2%:R).
Definition bias_ex : 'rV[rat]_3 := const_mx (1 / 3%:R).

Definition fresh_ex : AdaptAE rat :=
  model softsign "cpu" alpha_ex bias_ex 0 0.

Definition world_ex : world rat := World fresh_ex [::].

(* one row of width 2, and a batch of width 3 that does not fit *)
Definition row_ex : Tensor rat := mkT (const_mx 1 : 'rV[rat]_2).
Definition wide_ex : Tensor rat := mkT (const_mx 1 : 'M[rat]_(1, 3)).

(* -------------------------------------------------------------------- *)
(* The rest of the class and of util.py, and the argument checks of      *)
(* train-ps-elm-ae.py.                                                   *)

Section MoreDefinitions.
Variable F : realFieldType.

(* the read-only properties of the class: one-element tuples are lists *)
Definition input_shape : M F (seq nat) :=
  bind (@get_self F) (fun s => ret [:: __n_input_nodes s]).
Definition hidden_shape : M F (seq nat) :=
  bind (@get_self F) (fun s => ret [:: __n_hidden_nodes s]).
Definition device : M F string :=
  bind (@get_self F) (fun s => ret (__device s)).
Definition name : M F string :=
  bind (@get_self F) (fun s => ret (__name s)).

(* what a call may change: P, Beta and the log; everything else is kept *)
Definition same_frame (w w' : world F) : Prop :=
  [/\ __name (self w') = __name (self w),
      __n_input_nodes (self w') = __n_input_nodes (self w)
    & __n_hidden_nodes (self w') = __n_hidden_nodes (self w)]
  /\ [/\ __activation_func (self w') = __activation_func (self w),
         __alpha (self w') = __alpha (self w),
         __bias (self w') = __bias (self w)
       & __device (self w') = __device (self w)].

(* every state in which m can leave the object is related by R to the one
   it started from *)
Definition keeps (R : world F -> world F -> Prop) A (m : M F A) : Prop :=
  forall w w', final (m w) = Some w' -> R w w'.

(* nn.MSELoss()(input, target): the two tensors are broadcast against
   each other and the squares of the entries of their difference are
   averaged; the mean of no entry at all is nan *)
Definition numel (a : Tensor F) : nat := (nrows a * ncols a)%N.

Definition mse_loss (input target : Tensor F) : result F :=
  match tsub input target with
  | Ok d =>
      if numel d == 0%N then NonFinite
      else Ok ((\sum_i \sum_j tval d i j ^+ 2) / (numel d)%:R)
  | Raise e => Raise e
  | NonFinite => NonFinite
  end.

(* util.evaluate: the loss and an accuracy that is the constant 0 *)
Definition evaluate (test_data pred_data : Tensor F) : result (F * nat) :=
  match mse_loss test_data pred_data with
  | Ok loss => Ok (loss, 0%N)
  | Raise e => Raise e
  | NonFinite => NonFinite
  end.

(* Python floats as argparse hands them over (type=float accepts inf and
   nan); a comparison of floats involves no rounding, so the finite ones
   are elements of F *)
Inductive pyfloat := Finite of F | PosInf | NegInf | NaN.

(* x <= y on floats: false as soon as one side is nan *)
Definition py_le (x y : pyfloat) : bool :=
  match x, y with
  | NaN, _ | _, NaN => false
  | NegInf, _ => true
  | _, PosInf => true
  | Finite a, Finite b => a <= b
  | _, _ => false
  end.

(* the Namespace that parser.parse_args() returns *)
Record Namespace := mkNamespace {
  args_mode : string;
  args_dataset : string;
  args_batch_size : option int;
  args_device : string;
  args_seq_prop : option pyfloat;
  args_generate_imgs : bool;
  args_save_results : bool;
  args_phased : bool;
  args_result_strategy : option string;
  args_num_images : int
}.

(* the tuple that get_args returns *)
Record Arguments_ := mkArguments {
  ret_mode : string;
  ret_dataset : string;
  ret_batch_size : int;
  ret_device : string;
  ret_seq_prop : pyfloat;
  ret_gen_imgs : bool;
  ret_save_results : bool;
  ret_phased : bool;
  ret_result_strategy : option string;
  ret_num_images : int
}.

(* what the script does before it stops: logging.error, parser.print_help *)
Inductive event := LogError of string | PrintHelp.

Inductive cli (A : Type) :=
  | Returned of A
  | SystemExit of nat & seq event.
Arguments Returned {A} _.
Arguments SystemExit {A} _ _.

Definition cli_bind A B (m : cli A) (k : A -> cli B) : cli B :=
  match m with
  | Returned a => k a
  | SystemExit code evs => SystemExit code evs
  end.

(* util.exit_with_error: log the message, print the usage, exit(1) *)
Definition exit_with_error A (msg : string) : cli A :=
  SystemExit 1 [:: LogError msg; PrintHelp].

Definition DEFAULT_BATCH_SIZE : int := 10.
(* 0.99; the double nearest to it compares with 0 and 1 as 99/100 does *)
Definition DEFAULT_SEQ_PROP : pyfloat := Finite (99%:R / 100%:R).

(* get_args from the point where parser.parse_args() has returned the
   Namespace (line 500 on): the three checks of get_args itself and what
   it returns.  A command line that argparse itself refuses ends the
   program inside parse_args, before any of this runs. *)
Definition get_args (args : Namespace) : cli Arguments_ :=
  cli_bind
    (if String.eqb (args_mode args) "batch" then
       if args_batch_size args is Some b then Returned b
       else Returned DEFAULT_BATCH_SIZE
     else
       if args_batch_size args is Some _ then
         exit_with_error int "Batch size is not used in sample mode"
       else Returned (1 : int))
    (fun batch_size =>
  cli_bind
    (if args_seq_prop args is Some sp then
       if py_le sp (Finite 0) || py_le (Finite 1) sp then
         exit_with_error pyfloat "Sequential proportion must be between 0 and 1"
       else Returned sp
     else Returned DEFAULT_SEQ_PROP)
    (fun seq_prop =>
  cli_bind
    (if args_save_results args then
       if args_result_strategy args is None then
         exit_with_error unit "Must specify a result strategy if saving results"
       else Returned tt
     else Returned tt)
    (fun _ =>
  Returned (mkArguments (args_mode args) (args_dataset args) batch_size
              (args_device args) seq_prop (args_generate_imgs args)
              (args_save_results args) (args_phased args)
              (args_result_strategy args) (args_num_images args))))).

(* the states an object can be in when it is used in any way at all: it is
   constructed, then predict, init_phase and seq_phase are called on any
   tensors and with any mode; a call that raises leaves the object it had
   reached *)
Variable torch_tanh : F -> F.

Inductive attainable : world F -> Prop :=
  | attain_new act n_in n_hid dev al b m :
      __init__ torch_tanh act n_in n_hid dev al b = Ok m ->
      attainable (World m [::])
  | attain_predict w data w' :
      attainable w -> final (predict data w) = Some w' -> attainable w'
  | attain_init_phase w data w' :
      attainable w -> final (init_phase data w) = Some w' -> attainable w'
  | attain_seq_phase w data mode w' :
      attainable w -> final (seq_phase data mode w) = Some w' ->
      attainable w'.

End MoreDefinitions.

Arguments Returned {A} _.
Arguments SystemExit {A} _ _.

(* closed instances: parsed command lines, and a model with one input and
   one hidden unit *)
Definition args_ex : Namespace rat :=
  mkNamespace "batch" "mnist" None "cpu" (Some (Finite (1 / 2%:R)))
    false true false (Some "all") 5.
Definition args_sample_ex : Namespace rat :=
  mkNamespace "sample" "mnist" (Some 4) "cpu" None false false false None 5.

Definition alpha1_ex : 'M[rat]_(1, 1) := const_mx 1.
Definition bias1_ex : 'rV[rat]_1 := 0.
Definition x1_ex : 'M[rat]_(1, 1) := const_mx 1.

(* that model with P the identity, and with P = -4 *)
Definition one_world_ex : world rat :=
  World (model softsign "cpu" alpha1_ex bias1_ex 1%:M 0) [::].
Definition neg_world_ex : world rat :=
  World (model softsign "cpu" alpha1_ex bias1_ex (const_mx (- 4%:R)) 0) [::].
Definition square_ex : 'M[rat]_(3, 2) := const_mx 1.

Section Theory.
Variable F : realFieldType.
Variable torch_tanh : F -> F.

Local Notation __init__ := (__init__ torch_tanh).
Local Notation model := (model torch_tanh).
Local Notation project := (project torch_tanh).
Local Notation rls_rows := (rls_rows torch_tanh).
Local Notation reachable := (reachable torch_tanh).
Local Notation wf := (wf torch_tanh).
Local Notation state_inv := (state_inv torch_tanh).
Local Notation sym_state := (sym_state torch_tanh).
Local Notation psd_state := (psd_state torch_tanh).

(* -------------------------------------------------------------------- *)
(* Gram matrices over a real field.                                      *)

Lemma gram_diag m n (A : 'M[F]_(m, n)) i : (A *m A^T) i i = \sum_j A i j ^+ 2.
Proof. by rewrite mxE; apply: eq_bigr => j _; rewrite mxE expr2. Qed.

Lemma gram_diag_ge0 m n (A : 'M[F]_(m, n)) i : 0 <= (A *m A^T) i i.
Proof. by rewrite gram_diag; apply: sumr_ge0 => j _; apply: sqr_ge0. Qed.

Lemma gram_eq0 m n (A : 'M[F]_(m, n)) : A *m A^T = 0 -> A = 0.
Proof.
move=> A0; apply/matrixP => i j; rewrite [RHS]mxE.
have /psumr_eq0P : \sum_j A i j ^+ 2 = 0 by rewrite -gram_diag A0 mxE.
move=> H; have /eqP := H (fun j _ => sqr_ge0 (A i j)) j isT.
by rewrite sqrf_eq0 => /eqP.
Qed.

Lemma sqnorm_ge0 m n (A : 'M[F]_(m, n)) : 0 <= sqnorm A.
Proof. by rewrite /sqnorm /mxtrace; apply: sumr_ge0 => i _; apply: gram_diag_ge0. Qed.

Lemma gram_unit m n (A : 'M[F]_(m, n)) : row_free A -> A *m A^T \in unitmx.
Proof.
move=> fA; rewrite -row_free_unit -kermx_eq0; apply/eqP.
apply: (row_free_inj fA); rewrite mul0mx; apply: gram_eq0.
by rewrite trmx_mul mulmxA -[_ *m A *m _]mulmxA mulmx_ker mul0mx.
Qed.

(* -------------------------------------------------------------------- *)
(* pinv is the Moore-Penrose inverse, and the only one.                  *)

Lemma row_base_gram m n (A : 'M[F]_(m, n)) :
  row_base A *m (row_base A)^T \in unitmx.
Proof. exact/gram_unit/row_base_free. Qed.

Lemma col_base_gram m n (A : 'M[F]_(m, n)) :
  (col_base A)^T *m col_base A \in unitmx.
Proof.
rewrite -{2}[col_base A]trmxK; apply: gram_unit.
by rewrite /row_free mxrank_tr; exact: col_base_full.
Qed.

Lemma symmetric_inv n (A : 'M[F]_n) : symmetric A -> symmetric (invmx A).
Proof. by rewrite /symmetric trmx_inv => ->. Qed.

Lemma penrose_factor m r n (B : 'M[F]_(m, r)) (C : 'M[F]_(r, n)) :
  B^T *m B \in unitmx -> C *m C^T \in unitmx ->
  penrose (B *m C) (C^T *m invmx (C *m C^T) *m invmx (B^T *m B) *m B^T).
Proof.
move=> uB uC; set X := _ *m B^T.
have AX : B *m C *m X = B *m invmx (B^T *m B) *m B^T.
  rewrite /X !mulmxA -[B *m C *m _]mulmxA.
  by rewrite -[B *m _ *m invmx (C *m _)]mulmxA mulmxV // mulmx1.
have XA : X *m (B *m C) = C^T *m invmx (C *m C^T) *m C.
  rewrite /X !mulmxA -[_ *m B^T *m B]mulmxA.
  by rewrite -[_ *m invmx (B^T *m B) *m _]mulmxA mulVmx // mulmx1.
split.
- rewrite AX mulmxA -[_ *m B^T *m B]mulmxA.
  by rewrite -[B *m _ *m (_ *m B)]mulmxA mulVmx // mulmx1.
- rewrite XA {2}/X !mulmxA -[_ *m C *m C^T]mulmxA.
  by rewrite -[_ *m invmx (C *m C^T) *m (C *m C^T)]mulmxA mulVmx // mulmx1.
- rewrite AX !trmx_mul trmxK mulmxA; congr (_ *m _ *m _).
  by rewrite trmx_inv trmx_mul trmxK.
- rewrite XA !trmx_mul trmxK mulmxA; congr (_ *m _ *m _).
  by rewrite trmx_inv trmx_mul trmxK.
Qed.

Lemma pinvP m n (A : 'M[F]_(m, n)) : penrose A (pinv A).
Proof.
rewrite unlock -{1}(mulmx_base A).
exact: penrose_factor (col_base_gram A) (row_base_gram A).
Qed.

Lemma penrose_uniq m n (A : 'M[F]_(m, n)) X Y :
  penrose A X -> penrose A Y -> X = Y.
Proof.
move=> [X1 X2 X3 X4] [Y1 Y2 Y3 Y4].
have AXY : A *m X = A *m Y.
  rewrite -{1}Y1 -[A *m Y *m A *m X]mulmxA -Y3 -X3 -trmx_mul.
  by rewrite mulmxA X1 Y3.
have XAY : X *m A = Y *m A.
  rewrite -{1}Y1 !mulmxA -[X *m A *m Y *m A]mulmxA -X4 -Y4 -trmx_mul.
  by rewrite -mulmxA [A *m (X *m A)]mulmxA X1.
by rewrite -X2 -mulmxA AXY mulmxA XAY.
Qed.

Lemma pinv_unit n (A : 'M[F]_n) : A \in unitmx -> pinv A = invmx A.
Proof.
move=> uA; apply: (penrose_uniq (pinvP A)).
by split; rewrite ?mulmxV ?mulVmx ?mul1mx ?mulmx1 ?trmx1.
Qed.

Lemma pinv_tr m n (A : 'M[F]_(m, n)) : pinv A^T = (pinv A)^T.
Proof.
have [A1 A2 A3 A4] := pinvP A.
apply: (penrose_uniq (pinvP A^T)); split.
- by rewrite -!trmx_mul mulmxA A1.
- by rewrite -!trmx_mul mulmxA A2.
- by rewrite -trmx_mul A4.
- by rewrite -trmx_mul A3.
Qed.

Lemma pinv_sym n (A : 'M[F]_n) : symmetric A -> symmetric (pinv A).
Proof. by rewrite /symmetric => sA; rewrite -pinv_tr sA. Qed.

Lemma pinv0 m n : pinv (0 : 'M[F]_(m, n)) = 0.
Proof.
apply: (penrose_uniq (pinvP _)).
by split; rewrite ?mul0mx ?mulmx0 ?trmx0.
Qed.

(* -------------------------------------------------------------------- *)
(* The gain of a recursive least-squares step and its two equations.     *)

Lemma rv_gram_eq0 n (x : 'rV[F]_n) : (x *m x^T) 0 0 = 0 -> x = 0.
Proof.
rewrite gram_diag => /psumr_eq0P H; apply/rowP => j; rewrite [RHS]mxE.
have /eqP := H (fun j _ => sqr_ge0 (x 0 j)) j isT.
by rewrite sqrf_eq0 => /eqP.
Qed.

Lemma inj_unit n (S : 'M[F]_n) :
  (forall x : 'rV[F]_n, x *m S = 0 -> x = 0) -> S \in unitmx.
Proof.
move=> inj; rewrite -row_free_unit -kermx_eq0; apply/eqP/row_matrixP => i.
by rewrite row0; apply: inj; rewrite -row_mul mulmx_ker row0.
Qed.

Lemma innov_unit h n (P : 'M[F]_h) (H : 'M[F]_(n, h)) :
  psd P -> innov P H \in unitmx.
Proof.
move=> psdP; apply: inj_unit => x xS; apply: rv_gram_eq0.
have := congr1 (fun M : 'rV_n => (M *m x^T) 0 0) xS.
rewrite /= mul0mx [RHS]mxE /innov mulmxDr mulmx1 mulmxDl [X in X = _]mxE.
have -> : x *m (H *m (P *m H^T)) *m x^T = (x *m H) *m P *m (x *m H)^T.
  by rewrite trmx_mul !mulmxA.
move/eqP; rewrite paddr_eq0 ?gram_diag_ge0 //.
by case/andP => _ /eqP.
Qed.

Section Gain.
Variables (h n : nat) (P : 'M[F]_h) (H : 'M[F]_(n, h)).
Hypothesis uS : innov P H \in unitmx.

Local Notation K := (gain P H).

Lemma woodburyE : woodbury P H = P - K *m (H *m P).
Proof. by rewrite /woodbury pinv_unit // [@gain _]unlock. Qed.

Lemma gain_right : K + K *m (H *m (P *m H^T)) = P *m H^T.
Proof.
by rewrite addrC -{2}[K]mulmx1 -mulmxDr -/(innov P H) unlock mulmxKV.
Qed.

Lemma gain_left : K + P *m H^T *m H *m K = P *m H^T.
Proof.
rewrite unlock /gain_def; move: (invmx _) (mulmxV uS) => Si; rewrite /innov => SV.
by rewrite -{4}[P *m H^T]mulmx1 -SV !mxnf addrC.
Qed.

Lemma woodbury_left :
  (1%:M + P *m H^T *m H) *m woodbury P H = P.
Proof.
rewrite woodburyE mulmxBr mulmxA [_ *m K]mulmxDl mul1mx gain_left.
by rewrite mulmxDl mul1mx -[_ *m H *m P]mulmxA addrK.
Qed.

Lemma woodbury_right :
  woodbury P H *m (1%:M + H^T *m (H *m P)) = P.
Proof.
rewrite woodburyE mulmxBl.
have -> : K *m (H *m P) *m (1%:M + H^T *m (H *m P)) = P *m H^T *m (H *m P).
  by rewrite -{1}gain_right !mxnf.
by rewrite !mxnf addrK.
Qed.

Lemma woodbury_unit : 1%:M + P *m H^T *m H \in unitmx.
Proof.
have /mulmx1_unit[] // : (1%:M + P *m H^T *m H) *m (1%:M - K *m H) = 1%:M.
rewrite mulmxBr mulmx1 mulmxA [_ *m K]mulmxDl mul1mx gain_left.
by rewrite addrK.
Qed.

End Gain.

Lemma woodbury_joseph h n (P : 'M[F]_h) (H : 'M[F]_(n, h)) :
  innov P H \in unitmx ->
  woodbury P H =
    (1%:M - gain P H *m H) *m P *m (1%:M - gain P H *m H)^T
    + gain P H *m (gain P H)^T.
Proof.
move=> uS; rewrite woodburyE // linearB /= trmx1 trmx_mul.
rewrite !(mxnf, mulmxN, mulNmx) opprK -{1}(gain_right uS) !mxnf.
by rewrite opprD subrK subrK.
Qed.

Lemma psd_woodbury h n (P : 'M[F]_h) (H : 'M[F]_(n, h)) :
  psd P -> psd (woodbury P H).
Proof.
move=> psdP x; rewrite (woodbury_joseph (innov_unit H psdP)).
move: (gain P H) => K; move: (1%:M - K *m H) => Y.
rewrite mulmxDr mulmxDl mxE; apply: addr_ge0.
  by rewrite !mulmxA -[_ *m Y^T *m x^T]mulmxA -trmx_mul; apply: psdP.
by rewrite mulmxA -mulmxA -trmx_mul; apply: gram_diag_ge0.
Qed.

Lemma sym_innov h n (P : 'M[F]_h) (H : 'M[F]_(n, h)) :
  symmetric P -> symmetric (innov P H).
Proof.
by rewrite /symmetric /innov => sP; rewrite linearD /= trmx1 !trmx_mul trmxK sP mulmxA.
Qed.

Lemma sym_woodbury h n (P : 'M[F]_h) (H : 'M[F]_(n, h)) :
  symmetric P -> symmetric (woodbury P H).
Proof.
move=> sP; have sS := pinv_sym (sym_innov H sP); move: sP sS.
rewrite /symmetric /woodbury => sP sS.
by rewrite linearB /= !trmx_mul sS sP trmxK !mulmxA.
Qed.

Section Compose.
Variables (h d n1 n2 : nat) (P : 'M[F]_h).
Variables (H1 : 'M[F]_(n1, h)) (H2 : 'M[F]_(n2, h)).
Hypothesis psdP : psd P.

Lemma woodbury_col :
  woodbury P (col_mx H1 H2) = woodbury (woodbury P H1) H2.
Proof.
have uA := woodbury_unit (innov_unit (col_mx H1 H2) psdP).
apply: (can_inj (mulKmx uA)); rewrite (woodbury_left (innov_unit _ psdP)).
have := woodbury_left (innov_unit H2 (psd_woodbury H1 psdP)).
have := woodbury_left (innov_unit H1 psdP).
move: (woodbury P H1) (woodbury (woodbury P H1) H2) => P1 P2 L1 L2.
rewrite tr_col_mx -[P *m _ *m _]mulmxA mul_row_col.
have -> : 1%:M + P *m (H1^T *m H1 + H2^T *m H2)
          = (1%:M + P *m H1^T *m H1) *m (1%:M + P1 *m H2^T *m H2).
  rewrite [RHS]mulmxDr mulmx1 -[P1 *m _ *m _]mulmxA [_ *m (P1 *m _)]mulmxA L1.
  by rewrite mulmxDr !mulmxA addrA.
by rewrite -mulmxA L2 L1.
Qed.

Lemma rls_beta_col (B : 'M[F]_(h, d)) (X1 : 'M[F]_(n1, d)) (X2 : 'M[F]_(n2, d)) :
  rls_beta (woodbury P (col_mx H1 H2)) B (col_mx H1 H2) (col_mx X1 X2) =
  rls_beta (woodbury (woodbury P H1) H2)
           (rls_beta (woodbury P H1) B H1 X1) H2 X2.
Proof.
rewrite woodbury_col /rls_beta.
have := woodbury_right (innov_unit H2 (psd_woodbury H1 psdP)).
move: (woodbury P H1) (woodbury (woodbury P H1) H2) => P1 P2 R2.
rewrite tr_col_mx mul_col_mx opp_col_mx add_col_mx -[P2 *m _ *m _]mulmxA.
rewrite mul_row_col -addrA; congr (_ + _).
move: (X1 - H1 *m B) => r1; rewrite [H2 *m (_ + _)]mulmxDr opprD addrA.
move: (X2 - H2 *m B) => r2; rewrite -{1}R2 !(mxnf, mulmxN).
by rewrite addrACA subrr addr0.
Qed.

End Compose.

(* -------------------------------------------------------------------- *)
(* One row: the innovation matrix is a scalar.                           *)

Lemma innov_row h (P : 'M[F]_h) (H : 'rV[F]_h) : innov P H = (denom P H)%:M.
Proof.
by rewrite /innov /denom {1}[H *m _]mx11_scalar -raddfD /= addrC.
Qed.

Lemma pinv_scalar1 (a : F) : pinv (a%:M : 'M[F]_1) = (a^-1)%:M.
Proof.
have [->|a0] := eqVneq a 0.
  by rewrite invr0 !raddf0 pinv0.
by rewrite pinv_unit ?invmx_scalar // unitmxE det_scalar1 unitfE.
Qed.

Lemma woodbury_row h (P : 'M[F]_h) (H : 'rV[F]_h) :
  woodbury P H = sherman P H.
Proof.
rewrite /woodbury /sherman innov_row pinv_scalar1 mul_mx_scalar.
by rewrite -scalemxAl !mulmxA.
Qed.

Lemma denom_ge1 h (P : 'M[F]_h) (H : 'rV[F]_h) : psd P -> 1 <= denom P H.
Proof. by move=> psdP; rewrite /denom lerDl mulmxA; apply: psdP. Qed.

Lemma denom_neq0 h (P : 'M[F]_h) (H : 'rV[F]_h) : psd P -> denom P H != 0.
Proof.
by move=> /(denom_ge1 H) d1; rewrite gt_eqF // (lt_le_trans ltr01).
Qed.

(* -------------------------------------------------------------------- *)
(* Least squares through the pseudoinverse of the normal matrix.         *)

Lemma sqnorm_eq0 m n (A : 'M[F]_(m, n)) : sqnorm A = 0 -> A = 0.
Proof.
rewrite /sqnorm /mxtrace => tr0.
have d0 i : (A *m A^T) i i = 0.
  by apply: (psumr_eq0P _ tr0) => // j _; apply: gram_diag_ge0.
apply/row_matrixP => i; rewrite row0; apply: rv_gram_eq0.
rewrite gram_diag -[RHS](d0 i) gram_diag.
by apply: eq_bigr => j _; rewrite mxE.
Qed.

Lemma sqnormD m n (A B : 'M[F]_(m, n)) :
  \tr (A *m B^T) = 0 -> sqnorm (A + B) = sqnorm A + sqnorm B.
Proof.
move=> AB0; rewrite /sqnorm linearD /= mulmxDl !mulmxDr !mxtraceD AB0 addr0.
by rewrite -[B *m A^T]trmxK trmx_mul trmxK mxtrace_tr AB0 add0r.
Qed.

Lemma normal_fix m n (H : 'M[F]_(m, n)) (Q : 'M[F]_n) :
  Q *m (H^T *m H) = H^T *m H -> Q^T = Q -> Q *m H^T = H^T.
Proof.
rewrite mulmxA => QA sQ; apply/eqP; rewrite -subr_eq0; apply/eqP/gram_eq0.
by rewrite linearB /= trmx_mul trmxK sQ !(mxnf, mulmxN, mulNmx) !QA -opprD subrr.
Qed.

Lemma pinv_normal m n (H : 'M[F]_(m, n)) :
  H^T *m H *m pinv (H^T *m H) *m H^T = H^T.
Proof.
have [A1 _ A3 _] := pinvP (H^T *m H).
by apply: normal_fix.
Qed.

Lemma lstsq_split m n d (H : 'M[F]_(m, n)) (X : 'M[F]_(m, d)) (B : 'M[F]_(n, d)) :
  let Bh := pinv (H^T *m H) *m H^T *m X in
  sqnorm (X - H *m B) = sqnorm (X - H *m Bh) + sqnorm (H *m (Bh - B)).
Proof.
move=> Bh.
have -> : X - H *m B = (X - H *m Bh) + H *m (Bh - B).
  by rewrite mulmxBr addrA subrK.
apply: sqnormD.
rewrite trmx_mul mulmxA mxtrace_mulC mulmxA [H^T *m (_ - _)]mulmxBr.
by rewrite /Bh !mulmxA pinv_normal subrr mul0mx mxtrace0.
Qed.

Lemma pinv_lstsq m n d (H : 'M[F]_(m, n)) (X : 'M[F]_(m, d)) (B : 'M[F]_(n, d)) :
  sqnorm (X - H *m (pinv (H^T *m H) *m H^T *m X)) <= sqnorm (X - H *m B).
Proof. by rewrite (lstsq_split H X B) lerDl sqnorm_ge0. Qed.

Lemma lstsq_normal m n d (H : 'M[F]_(m, n)) (X : 'M[F]_(m, d)) (B : 'M[F]_(n, d)) :
  (forall B', sqnorm (X - H *m B) <= sqnorm (X - H *m B')) ->
  H^T *m H *m B = H^T *m X.
Proof.
move/(_ (pinv (H^T *m H) *m H^T *m X)); rewrite (lstsq_split H X B) /=.
rewrite gerDl => le0; have /sqnorm_eq0/eqP : sqnorm (H *m (pinv (H^T *m H) *m H^T *m X - B)) = 0.
  by apply/eqP; rewrite eq_le le0 sqnorm_ge0.
rewrite mulmxBr subr_eq0 => /eqP HB.
by rewrite -mulmxA -HB !mulmxA pinv_normal.
Qed.

Lemma pinv_min_norm m n d (A : 'M[F]_(m, n)) (Y : 'M[F]_(m, d)) (B : 'M[F]_(n, d)) :
  A *m B = Y -> sqnorm (pinv A *m Y) <= sqnorm B.
Proof.
move=> <-; have [A1 _ _ A4] := pinvP A; move: (pinv A) A1 A4 => X A1 A4.
have QQ : X *m A *m (X *m A) = X *m A.
  by rewrite -mulmxA [A *m (_ *m _)]mulmxA A1.
have cross : \tr (X *m (A *m B) *m (B - X *m (A *m B))^T) = 0.
  rewrite !mulmxA; move: (X *m A) QQ A4 => Q QQ sQ.
  rewrite linearB /= trmx_mul sQ mulmxBr raddfB /= [_ *m (_ *m Q)]mulmxA.
  by rewrite [X in _ - X]mxtrace_mulC !mulmxA QQ subrr.
have {2}-> : B = X *m (A *m B) + (B - X *m (A *m B)) by rewrite addrC subrK.
by rewrite (sqnormD cross) lerDl sqnorm_ge0.
Qed.

Lemma sym_gram m n (H : 'M[F]_(m, n)) : symmetric (H^T *m H).
Proof. by rewrite /symmetric trmx_mul trmxK. Qed.

Lemma psd_pinv_gram m n (H : 'M[F]_(m, n)) : psd (pinv (H^T *m H)).
Proof.
have sX := pinv_sym (sym_gram H); have [_ X2 _ _] := pinvP (H^T *m H).
move: (pinv _) sX X2 => X sX X2 x.
rewrite -X2 -{2}sX !mulmxA -[_ *m X^T *m x^T]mulmxA -trmx_mul.
by rewrite -[_ *m H *m _]mulmxA -{2}[H]trmxK -trmx_mul; apply: gram_diag_ge0.
Qed.

Lemma psd0 n : psd (0 : 'M[F]_n).
Proof. by move=> x; rewrite mulmx0 mul0mx mxE. Qed.

Lemma sym0 n : symmetric (0 : 'M[F]_n).
Proof. exact: trmx0. Qed.

(* -------------------------------------------------------------------- *)
(* The torch operations on operands whose shapes fit.                    *)

Lemma matmulE m n p (A : 'M[F]_(m, n)) (B : 'M[F]_(n, p)) :
  matmul (mkT A) (mkT B) = Ok (mkT (A *m B)).
Proof.
rewrite /matmul /=; case: eqP => // e.
by rewrite (eq_axiomK e) /= castmx_id.
Qed.

Lemma expand_id m n (A : 'M[F]_(m, n)) : expand (mkT A) m n = A.
Proof.
apply/matrixP => i j; rewrite mxE /tget /=.
have -> : (if m == 1 then 0 else i)%N = i.
  by case: eqP i => // -> i; rewrite ord1.
have -> : (if n == 1 then 0 else j)%N = j.
  by case: eqP j => // -> j; rewrite ord1.
by rewrite !valK.
Qed.

Lemma expand_row n (b : 'rV[F]_n) r :
  expand (mkT b) r n = \matrix_(i, j) b 0 j.
Proof.
apply/matrixP => i j; rewrite !mxE /tget /= insubT //=.
have -> : (if n == 1 then 0 else j)%N = j.
  by case: eqP j => // -> j; rewrite ord1.
by rewrite valK; congr (b _ _); apply: val_inj.
Qed.

Lemma expand_scalar (s : 'M[F]_1) r c : expand (mkT s) r c = const_mx (s 0 0).
Proof.
apply/matrixP => i j; rewrite !mxE /tget /= !insubT //=.
by congr (s _ _); apply: val_inj.
Qed.

Lemma bdimxx n : bdim n n = Some n.
Proof. by rewrite /bdim eqxx. Qed.

Lemma bdim1 n : bdim n 1 = Some n.
Proof. by rewrite /bdim; case: eqP => [->|] //; case: eqP => [->|]. Qed.

Lemma bdim1n n : bdim 1 n = Some n.
Proof. by rewrite /bdim eq_sym; case: eqP => [->|]. Qed.

Lemma taddE m n (A B : 'M[F]_(m, n)) : tadd (mkT A) (mkT B) = Ok (mkT (A + B)).
Proof.
rewrite /tadd /broadcast2 /= !bdimxx !expand_id; congr (Ok (mkT _)).
by apply/matrixP => i j; rewrite !mxE.
Qed.

Lemma tsubE m n (A B : 'M[F]_(m, n)) : tsub (mkT A) (mkT B) = Ok (mkT (A - B)).
Proof.
rewrite /tsub /broadcast2 /= !bdimxx !expand_id; congr (Ok (mkT _)).
by apply/matrixP => i j; rewrite !mxE.
Qed.

Lemma iaddE m n (A B : 'M[F]_(m, n)) : iadd (mkT A) (mkT B) = Ok (mkT (A + B)).
Proof.
rewrite /iadd /inplace /= !bdimxx !eqxx /= !expand_id; congr (Ok (mkT _)).
by apply/matrixP => i j; rewrite !mxE.
Qed.

Lemma isubE m n (A B : 'M[F]_(m, n)) : isub (mkT A) (mkT B) = Ok (mkT (A - B)).
Proof.
rewrite /isub /inplace /= !bdimxx !eqxx /= !expand_id; congr (Ok (mkT _)).
by apply/matrixP => i j; rewrite !mxE.
Qed.

Lemma tadd_row m n (A : 'M[F]_(m, n)) (b : 'rV[F]_n) :
  tadd (mkT A) (mkT b) = Ok (mkT (A + rowbc m b)).
Proof.
rewrite /tadd /broadcast2 /= bdim1 bdimxx expand_id expand_row.
by congr (Ok (mkT _)); apply/matrixP => i j; rewrite !mxE.
Qed.

Lemma tdiv_scalar m n (A : 'M[F]_(m, n)) (s : 'M[F]_1) :
  s 0 0 != 0 -> tdiv (mkT A) (mkT s) = Ok (mkT ((s 0 0)^-1 *: A)).
Proof.
move=> s0; rewrite /tdiv /= !bdim1 expand_id expand_scalar.
have -> : [forall i, forall j, (const_mx (s 0 0) : 'M_(m, n)) i j != 0].
  by apply/forallP => i; apply/forallP => j; rewrite mxE.
by congr (Ok (mkT _)); apply/matrixP => i j; rewrite !mxE mulrC.
Qed.

Lemma tdiv_scalar0 m n (A : 'M[F]_(m.+1, n.+1)) (s : 'M[F]_1) :
  s 0 0 = 0 -> tdiv (mkT A) (mkT s) = NonFinite.
Proof.
move=> s0; rewrite /tdiv /= !bdim1 expand_scalar.
case: forallP => // /(_ ord0) /forallP /(_ ord0).
by rewrite mxE s0 eqxx.
Qed.

(* -------------------------------------------------------------------- *)
(* Runs of the methods on a well-shaped object and a batch of width      *)
(* input_dim: they return, and what they leave is given by the spec's    *)
(* formulas.                                                             *)

(* runs the tensor operations of a method on well-shaped operands *)
Ltac run_tensors :=
  rewrite /bind /lift /transpose /torch_pinv /eye /tmap /=;
  repeat (rewrite !(matmulE, taddE, tsubE, iaddE, isubE) /=).

Section Runs.
Variables (n_in n_hid : nat) (dev : string).
Variables (al : 'M[F]_(n_in, n_hid)) (b : 'rV[F]_n_hid).

Implicit Types (P : 'M[F]_n_hid) (B : 'M[F]_(n_hid, n_in)) (lg : seq string).

Local Notation mdl := (model dev al b).
Local Notation proj := (project al b).

Lemma transposeE m n (A : 'M[F]_(m, n)) : transpose (mkT A) = mkT A^T.
Proof. by []. Qed.

Lemma torch_pinvE m n (A : 'M[F]_(m, n)) : torch_pinv (mkT A) = mkT (pinv A).
Proof. by []. Qed.

Lemma hidden_layerE P B lg n (X : 'M[F]_(n, n_in)) :
  hidden_layer (mkT X) (World (mdl P B) lg)
  = Done (mkT (proj X)) (World (mdl P B) lg).
Proof. by rewrite /hidden_layer /bind /= matmulE /= tadd_row. Qed.

Lemma assert_cond_true msg (w : world F) : assert_cond true msg w = Done tt w.
Proof. by []. Qed.

Lemma assert_cond_false msg (w : world F) :
  assert_cond false msg w
  = Failed (AssertionError msg) (World (self w) (rcons (logged w) msg)).
Proof. by []. Qed.

Lemma predictE P B lg n (X : 'M[F]_(n, n_in)) :
  predict (mkT X) (World (mdl P B) lg)
  = Done (mkT (proj X *m B)) (World (mdl P B) lg).
Proof. by rewrite /predict /bind hidden_layerE /= /lift matmulE. Qed.

Lemma init_phaseE P B lg n (X : 'M[F]_(n, n_in)) :
  let H := proj X in
  let P' := pinv (H^T *m H) in
  let B' := P' *m H^T *m X in
  init_phase (mkT X) (World (mdl P B) lg)
  = Done (mkT B') (World (mdl P' B') lg).
Proof.
rewrite /init_phase /bind /= eqxx assert_cond_true hidden_layerE /= !eqxx.
by rewrite !assert_cond_true; run_tensors.
Qed.

Lemma calc_p_batchE P B lg n (H : 'M[F]_(n, n_hid)) :
  calc_p_batch n (mkT H) (World (mdl P B) lg)
  = Done tt (World (mdl (woodbury P H) B) lg).
Proof. by rewrite /calc_p_batch; run_tensors. Qed.

Lemma calc_beta_batchE P B lg n (X : 'M[F]_(n, n_in)) (H : 'M[F]_(n, n_hid)) :
  calc_beta_batch (mkT X) (mkT H) (World (mdl P B) lg)
  = Done tt (World (mdl P (rls_beta P B H X)) lg).
Proof. by rewrite /calc_beta_batch; run_tensors. Qed.

Lemma seq_phase_batchE P B lg n (X : 'M[F]_(n, n_in)) :
  let H := proj X in
  let P' := woodbury P H in
  let B' := rls_beta P' B H X in
  seq_phase (mkT X) "batch" (World (mdl P B) lg)
  = Done (mkT B') (World (mdl P' B') lg).
Proof.
rewrite /seq_phase /bind hidden_layerE /= !eqxx !assert_cond_true.
by rewrite calc_p_batchE calc_beta_batchE.
Qed.

Lemma calc_p_sampleE P B lg (H : 'rV[F]_n_hid) :
  denom P H != 0 ->
  calc_p_sample (mkT H^T) (World (mdl P B) lg)
  = Done tt (World (mdl (sherman P H) B) lg).
Proof.
move=> d0; rewrite /calc_p_sample; run_tensors.
rewrite /scalar_add /= tdiv_scalar mxE trmxK //= isubE /=.
by rewrite /sherman /denom.
Qed.

Lemma calc_beta_sampleE P B lg (x : 'rV[F]_n_in) (H : 'rV[F]_n_hid) :
  calc_beta_sample (mkT x) (mkT H^T) (World (mdl P B) lg)
  = Done tt (World (mdl P (rls_beta P B H x)) lg).
Proof. by rewrite /calc_beta_sample; run_tensors; rewrite /rls_beta trmxK. Qed.

Lemma seq_phase_sampleE P B lg (x : 'rV[F]_n_in) :
  let H := proj x in
  let P' := sherman P H in
  let B' := rls_beta P' B H x in
  denom P H != 0 ->
  seq_phase (mkT x) "sample" (World (mdl P B) lg)
  = Done (mkT B') (World (mdl P' B') lg).
Proof.
move=> H P' B' d0.
rewrite /seq_phase /bind hidden_layerE /= !eqxx !assert_cond_true.
by rewrite calc_p_sampleE // calc_beta_sampleE.
Qed.

End Runs.

(* -------------------------------------------------------------------- *)
(* Calls that fail, and calls that lose finiteness.                      *)

Lemma matmul_neq (a b : Tensor F) : ncols a != nrows b -> matmul a b = Raise shape_error.
Proof. by rewrite /matmul; case: eqP. Qed.

Lemma hidden_layer_neq data (w : world F) :
  ncols data != nrows (__alpha (self w)) ->
  hidden_layer data w = Failed shape_error w.
Proof. by move=> ne; rewrite /hidden_layer /bind /= /lift matmul_neq. Qed.

Lemma seq_phase_neq data mode (w : world F) :
  ncols data != nrows (__alpha (self w)) ->
  seq_phase data mode w = Failed shape_error w.
Proof. by move=> ne; rewrite /seq_phase /bind hidden_layer_neq. Qed.

Lemma seq_phase_mode n_in n_hid dev (al : 'M[F]_(n_in, n_hid)) b P B lg
    n (X : 'M[F]_(n, n_in)) mode :
  String.eqb mode "batch" = false -> String.eqb mode "sample" = false ->
  seq_phase (mkT X) mode (World (model dev al b P B) lg)
  = Failed (ValueError "Mode not supported") (World (model dev al b P B) lg).
Proof. by move=> Eb Es; rewrite /seq_phase /bind hidden_layerE /= Eb Es. Qed.

(* sample mode on a batch whose row count fits neither 1 nor hidden_dim:
   the quotient of the P update cannot be broadcast *)
Lemma seq_phase_sample_rows n_in n_hid dev (al : 'M[F]_(n_in, n_hid)) b P B lg
    n (X : 'M[F]_(n, n_in)) :
  bdim n_hid n = None ->
  seq_phase (mkT X) "sample" (World (model dev al b P B) lg)
  = Failed shape_error (World (model dev al b P B) lg).
Proof.
move=> nb; rewrite /seq_phase /bind hidden_layerE /= eqxx assert_cond_true.
by rewrite /calc_p_sample; run_tensors; rewrite /tdiv /= nb.
Qed.

Lemma calc_p_sample_lost n_in h dev (al : 'M[F]_(n_in, h.+1)) b P B lg
    (H : 'rV[F]_h.+1) :
  denom P H = 0 ->
  calc_p_sample (mkT H^T) (World (model dev al b P B) lg) = Lost.
Proof.
move=> d0; rewrite /calc_p_sample; run_tensors.
by rewrite /scalar_add /= tdiv_scalar0 // mxE trmxK.
Qed.

Lemma seq_phase_sample_lost n_in n_hid dev (al : 'M[F]_(n_in, n_hid)) b P B lg
    (x : 'rV[F]_n_in) :
  denom P (project al b x) = 0 ->
  seq_phase (mkT x) "sample" (World (model dev al b P B) lg) = Lost.
Proof.
case: n_hid al b P B => [|h] al b P B d0.
  move/eqP: d0; rewrite /denom [project al b x]thinmx0 mul0mx mxE addr0.
  by rewrite oner_eq0.
rewrite /seq_phase /bind hidden_layerE /= eqxx assert_cond_true.
by rewrite calc_p_sample_lost.
Qed.

(* -------------------------------------------------------------------- *)
(* A property of P that the two update formulas keep is an invariant of  *)
(* the object.                                                           *)

Section Invariant.
Variable I : forall h, 'M[F]_h -> Prop.
Hypothesis I_pinv : forall m h (H : 'M[F]_(m, h)), I (pinv (H^T *m H)).
Hypothesis I_woodbury :
  forall h n (P : 'M[F]_h) (H : 'M[F]_(n, h)), I P -> I (woodbury P H).

Lemma state_inv_init_phase data (w : world F) w' :
  state_inv I w -> final (init_phase data w) = Some w' -> state_inv I w'.
Proof.
case: w => s lg [n_in [n_hid [dev [al [b [P [B [/= -> IP]]]]]]]].
case: data => n c X; have [ec|ne] := eqVneq c n_in.
  subst c; rewrite init_phaseE => -[<-].
  by exists n_in, n_hid, dev, al, b, (pinv ((project al b X)^T *m project al b X)); eexists.
rewrite /init_phase /bind /= (negPf ne) assert_cond_false /= => -[<-].
by exists n_in, n_hid, dev, al, b, P, B.
Qed.

Lemma state_inv_seq_phase data mode (w : world F) w' :
  state_inv I w -> (mode = "sample" -> nrows data = 1%N) ->
  final (seq_phase data mode w) = Some w' -> state_inv I w'.
Proof.
case: w => s lg [n_in [n_hid [dev [al [b [P [B [/= -> IP]]]]]]]].
case: data => n c X /= n1; have [ec|ne] := eqVneq c n_in; last first.
  rewrite seq_phase_neq // => -[<-].
  by exists n_in, n_hid, dev, al, b, P, B.
subst c; case Eb: (String.eqb mode "batch").
  move/String.eqb_eq: Eb => ->; rewrite seq_phase_batchE => -[<-].
  exists n_in, n_hid, dev, al, b, (woodbury P (project al b X)).
  by eexists; split; [by [] | exact: I_woodbury].
case Es: (String.eqb mode "sample"); last first.
  rewrite seq_phase_mode // => -[<-].
  by exists n_in, n_hid, dev, al, b, P, B.
move/String.eqb_eq: Es => Es; move: (n1 Es) X => -> {n1} X; rewrite Es.
have [d0|d0] := eqVneq (denom P (project al b X)) 0.
  by rewrite seq_phase_sample_lost.
rewrite seq_phase_sampleE // => -[<-].
exists n_in, n_hid, dev, al, b, (sherman P (project al b X)).
by eexists; split; [by [] | rewrite -woodbury_row; exact: I_woodbury].
Qed.

End Invariant.

Lemma wf_new act n_in n_hid dev al b m lg :
  __init__ act n_in n_hid dev al b = Ok m -> wf (World m lg).
Proof.
rewrite /__init__; case: String.eqb => // -[<-].
exists n_in, n_hid, dev, al, b, 0, 0; split=> //.
by split; [exact: sym0 | exact: psd0].
Qed.

Lemma reachable_wf w : reachable w -> wf w.
Proof.
elim=> [act n_in n_hid dev al b m|w0 data w1 _|w0 data mode w1 _].
- exact: wf_new.
- apply: state_inv_init_phase => m h H.
  by split; [exact/pinv_sym/sym_gram | exact: psd_pinv_gram].
- apply: state_inv_seq_phase => h n P H [sP pP].
  by split; [exact: sym_woodbury | exact: psd_woodbury].
Qed.

(* -------------------------------------------------------------------- *)
(* Rows one at a time against the stacked batch.                         *)

Lemma rowbc_col m1 m2 n (b : 'rV[F]_n) :
  rowbc (m1 + m2) b = col_mx (rowbc m1 b) (rowbc m2 b).
Proof.
apply/matrixP => i j; rewrite !mxE.
by case: (split i) => k; rewrite mxE.
Qed.

Lemma project_col n_in n_hid (al : 'M[F]_(n_in, n_hid)) b m1 m2
    (X1 : 'M[F]_(m1, n_in)) (X2 : 'M[F]_(m2, n_in)) :
  project al b (col_mx X1 X2) = col_mx (project al b X1) (project al b X2).
Proof. by rewrite /project mul_col_mx rowbc_col add_col_mx map_col_mx. Qed.

Lemma seq_phase_one_row n_in n_hid dev (al : 'M[F]_(n_in, n_hid)) b P B lg
    (x : 'rV[F]_n_in) :
  denom P (project al b x) != 0 ->
  seq_phase (mkT x) "batch" (World (model dev al b P B) lg)
  = seq_phase (mkT x) "sample" (World (model dev al b P B) lg).
Proof. by move=> d0; rewrite seq_phase_batchE seq_phase_sampleE // woodbury_row. Qed.

Section Decompose.
Variables (n_in n_hid : nat) (dev : string).
Variables (al : 'M[F]_(n_in, n_hid)) (b : 'rV[F]_n_hid).

Lemma train_sequential_rows lg (rows : seq 'rV[F]_n_in) P B :
  psd P ->
  train_sequential [seq mkT x | x <- rows] "sample"
    (World (model dev al b P B) lg)
  = Done tt (World (model dev al b (rls_rows al b rows P B).1
                      (rls_rows al b rows P B).2) lg).
Proof.
elim: rows P B => [|x rows IH] P B pP //=.
rewrite /bind seq_phase_sampleE; first exact: (denom_neq0 _ pP).
by apply: IH; rewrite -woodbury_row; apply: psd_woodbury.
Qed.

Lemma rls_rows_stack (rows : seq 'rV[F]_n_in) P B :
  psd P ->
  let H := project al b (stack rows) in
  rls_rows al b rows P B = (woodbury P H, rls_beta (woodbury P H) B H (stack rows)).
Proof.
elim: rows P B => [|x rows IH] P B pP /=.
  rewrite /woodbury /rls_beta [P *m _]thinmx0 !mul0mx subr0.
  by rewrite [P *m _]thinmx0 mul0mx addr0.
have pP1 : psd (sherman P (project al b x)).
  by rewrite -woodbury_row; apply: psd_woodbury.
rewrite IH // -woodbury_row.
have -> : project al b (col_mx x (stack rows))
          = col_mx (project al b x) (project al b (stack rows)).
  exact: project_col.
congr (_, _); first exact: esym (woodbury_col _ _ pP).
exact: esym (rls_beta_col _ _ pP _ _ _).
Qed.

End Decompose.


(* -------------------------------------------------------------------- *)
(* Further facts used by the properties below.                           *)

Lemma init_phase_neq n_in n_hid dev (al : 'M[F]_(n_in, n_hid)) b P B lg
    (data : Tensor F) :
  ncols data != n_in ->
  init_phase data (World (model dev al b P B) lg)
  = Failed (AssertionError "Input data shape does not match the input nodes")
      (World (model dev al b P B)
         (rcons lg "Input data shape does not match the input nodes")).
Proof.
by move=> ne; rewrite /init_phase /bind /= (negPf ne) assert_cond_false.
Qed.

Lemma assert_condE c msg (w : world F) :
  assert_cond c msg w
  = if c then Done tt w
    else Failed (AssertionError msg) (World (self w) (rcons (logged w) msg)).
Proof. by case: c. Qed.

Lemma min_norm_lex m n d (H : 'M[F]_(m, n)) (X : 'M[F]_(m, d))
    (Bt : 'M[F]_(n, d)) :
  (sqnorm (X - H *m (pinv (H^T *m H) *m H^T *m X)) < sqnorm (X - H *m Bt))
  || (sqnorm (pinv (H^T *m H) *m H^T *m X) <= sqnorm Bt).
Proof.
rewrite ltNge; case le_res: (sqnorm (X - H *m Bt) <= _) => //=.
rewrite -mulmxA; apply: pinv_min_norm; apply: lstsq_normal => B'.
exact: le_trans le_res (pinv_lstsq H X B').
Qed.

Lemma init_fresh act n_in n_hid dev al b m :
  __init__ act n_in n_hid dev al b = Ok m -> m = model dev al b 0 0.
Proof. by rewrite /__init__; case: String.eqb => // -[<-]. Qed.

(* -------------------------------------------------------------------- *)
(* The properties of the specification.                                  *)

(** C1 (sequential decomposition).  From the state that init_phase
    produces on any batch X0, feeding the rows x1 .. xn to seq_phase in
    sample mode, one row at a time and in order, ends in the very state
    (the same P and the same Beta) in which one call of seq_phase in batch
    mode on the stacked matrix [x1; ...; xn] ends; all the calls return. *)
Theorem sample_sequence_eq_batch n_in n_hid dev (al : 'M[F]_(n_in, n_hid)) b
    P B lg n0 (X0 : 'M[F]_(n0, n_in)) (rows : seq 'rV[F]_n_in) :
  exists Beta1 w1 Beta2 w2,
    [/\ init_phase (mkT X0) (World (model dev al b P B) lg) = Done Beta1 w1,
        train_sequential [seq mkT x | x <- rows] "sample" w1 = Done tt w2
      & seq_phase (mkT (stack rows)) "batch" w1 = Done Beta2 w2].
Proof.
rewrite init_phaseE; set P1 := pinv _; set B1 := P1 *m _ *m X0.
have pP1 : psd P1 by exact: psd_pinv_gram.
exists (mkT B1), (World (model dev al b P1 B1) lg).
exists (mkT (rls_rows al b rows P1 B1).2).
exists (World (model dev al b (rls_rows al b rows P1 B1).1
                 (rls_rows al b rows P1 B1).2) lg).
split=> //; first exact: train_sequential_rows.
by rewrite seq_phase_batchE rls_rows_stack.
Qed.

(** C2 (batch/sample equivalence), as the code has it.  On one row x of
    width input_dim, with h its hidden row, and from any P and Beta for
    which the denominator d = 1 + h P ht of the sample update is not zero,
    seq_phase in batch mode and in sample mode have the same outcome: both
    return, with the same Beta and the same final P and Beta.  A positive
    semidefinite P never has d = 0. *)
Theorem batch_sample_equiv_one_row n_in n_hid dev (al : 'M[F]_(n_in, n_hid)) b
    (P : 'M[F]_n_hid) (B : 'M[F]_(n_hid, n_in)) lg (x : 'rV[F]_n_in) :
  let h := map_mx torch_tanh (x *m al + rowbc 1 b) in
  let d := 1 + (h *m P *m h^T) 0 0 in
  let w := World (model dev al b P B) lg in
  (psd P -> d != 0)
  /\ (d != 0 ->
      seq_phase (mkT x) "batch" w = seq_phase (mkT x) "sample" w
      /\ exists (Beta' : 'M[F]_(n_hid, n_in)) (P' : 'M[F]_n_hid),
           seq_phase (mkT x) "sample" w
           = Done (mkT Beta') (World (model dev al b P' Beta') lg)).
Proof.
move=> h d w.
have dE : d = denom P (project al b x) by rewrite /d /denom mulmxA.
split=> [pP|d0]; first by rewrite dE; apply: denom_neq0.
rewrite dE in d0; split; first exact: seq_phase_one_row.
by rewrite /w seq_phase_sampleE //; do 2!eexists.
Qed.

(** C3 (batch update).  On a batch of width input_dim, seq_phase in batch
    mode computes H = activation(data @ alpha + bias), replaces P by
    P - P Ht pinv(H P Ht + I_n) H P, then Beta by
    Beta + P_new Ht (data - H Beta) with the P already updated, and
    returns the new Beta. *)
Theorem seq_phase_batch_update n_in n_hid dev (al : 'M[F]_(n_in, n_hid)) b
    P B lg n (X : 'M[F]_(n, n_in)) :
  let H := map_mx torch_tanh (X *m al + rowbc n b) in
  let P_new := P - P *m H^T *m pinv (H *m P *m H^T + 1%:M) *m H *m P in
  let Beta_new := B + P_new *m H^T *m (X - H *m B) in
  seq_phase (mkT X) "batch" (World (model dev al b P B) lg)
  = Done (mkT Beta_new) (World (model dev al b P_new Beta_new) lg).
Proof.
by rewrite seq_phase_batchE /woodbury /innov /rls_beta /project !mulmxA.
Qed.

(** C4 (initialisation).  On a batch of width input_dim, init_phase
    computes H = activation(data @ alpha + bias), sets P = pinv(Ht H) (the
    Moore-Penrose inverse) and Beta = P Ht data, and returns the new Beta,
    whatever the rank of Ht H.  This Beta is a least-squares solution of
    H Beta = data, and among the least-squares solutions it has the least
    norm: any other matrix has a strictly larger residual or a norm at
    least as large. *)
Theorem init_phase_least_squares n_in n_hid dev (al : 'M[F]_(n_in, n_hid)) b
    P B lg n (X : 'M[F]_(n, n_in)) :
  let H := map_mx torch_tanh (X *m al + rowbc n b) in
  let P_new := pinv (H^T *m H) in
  let Beta_new := P_new *m H^T *m X in
  [/\ init_phase (mkT X) (World (model dev al b P B) lg)
      = Done (mkT Beta_new) (World (model dev al b P_new Beta_new) lg),
      penrose (H^T *m H) P_new,
      forall Bt, sqnorm (X - H *m Beta_new) <= sqnorm (X - H *m Bt)
    & forall Bt, (sqnorm (X - H *m Beta_new) < sqnorm (X - H *m Bt))
                 || (sqnorm Beta_new <= sqnorm Bt)].
Proof.
move=> H P_new Beta_new; split.
- exact: init_phaseE.
- exact: pinvP.
- exact: pinv_lstsq.
- exact: min_norm_lex.
Qed.

(** C5 (symmetry invariant).  P is symmetric in every state the object
    can be in: at construction, after init_phase and after every seq_phase
    call in either mode.  Moreover each call started from any symmetric P
    leaves a symmetric P. *)
Theorem p_symmetric_invariant :
  [/\ forall w, reachable w -> sym_state w,
      forall (w : world F) data w',
        sym_state w -> final (init_phase data w) = Some w' -> sym_state w'
    & forall (w : world F) data mode w',
        sym_state w -> (mode = "sample" -> nrows data = 1%N) ->
        final (seq_phase data mode w) = Some w' -> sym_state w'].
Proof.
split.
- move=> w /reachable_wf [n_in [n_hid [dev [al [b [P [B [E [sP _]]]]]]]]].
  by exists n_in, n_hid, dev, al, b, P, B.
- move=> w data w'; apply: state_inv_init_phase => m h H.
  exact/pinv_sym/sym_gram.
- move=> w data mode w'; apply: state_inv_seq_phase => h n P H.
  exact: sym_woodbury.
Qed.

(** C6 (supported activations), as the code has it.  Construction
    succeeds for the activation name tanh; for every other name, sigmoid
    included, it raises ValueError. *)
Theorem construction_only_tanh act n_in n_hid dev
    (al : 'M[F]_(n_in, n_hid)) b :
  (act = "tanh" /\ __init__ act n_in n_hid dev al b = Ok (model dev al b 0 0))
  \/ (act <> "tanh"
      /\ __init__ act n_in n_hid dev al b
         = Raise (ValueError "Activation function not supported")).
Proof.
rewrite /__init__; case E: (String.eqb act "tanh").
  by left; split=> //; apply/String.eqb_eq.
by right; split=> // /String.eqb_eq; rewrite E.
Qed.

(** C7 (shape mismatch): what the code does on a batch whose width
    differs from input_dim.  assert_cond on a false condition logs its
    message and raises the AssertionError again.  init_phase, which
    asserts first, logs the width message and fails with that assertion
    failure before P or Beta is written, as the claim says.  seq_phase (in
    any mode) projects before it asserts: it fails with the shape error of
    the matrix product of the projection, so that its own width assertion
    is never reached and nothing is logged; the object is left as it was.
    On a batch of the right width the hidden representation has hidden_dim
    columns and as many rows as the batch. *)
Theorem width_mismatch_runtime_error n_in n_hid dev
    (al : 'M[F]_(n_in, n_hid)) b P B lg (data : Tensor F) :
  ncols data != n_in ->
  [/\ init_phase data (World (model dev al b P B) lg)
      = Failed
          (AssertionError "Input data shape does not match the input nodes")
          (World (model dev al b P B)
             (rcons lg "Input data shape does not match the input nodes")),
      forall mode,
        seq_phase data mode (World (model dev al b P B) lg)
        = Failed shape_error (World (model dev al b P B) lg),
      forall msg (w : world F),
        assert_cond true msg w = Done tt w
        /\ assert_cond false msg w
           = Failed (AssertionError msg)
               (World (self w) (rcons (logged w) msg))
    & forall n (X : 'M[F]_(n, n_in)),
        exists2 H, hidden_layer (mkT X) (World (model dev al b P B) lg)
                   = Done H (World (model dev al b P B) lg)
                 & ncols H = n_hid /\ nrows H = n].
Proof.
move=> ne; split.
- exact: init_phase_neq.
- by move=> mode; rewrite seq_phase_neq.
- by move=> msg w; rewrite !assert_condE.
- by move=> n X; rewrite hidden_layerE; eexists.
Qed.

(** C8 (unsupported mode).  For a mode other than batch and sample,
    seq_phase raises and leaves the object as it was, P and Beta included;
    on a batch of width input_dim the exception is the ValueError of the
    mode test, and no mode is applied in its place. *)
Theorem seq_phase_unsupported_mode n_in n_hid dev (al : 'M[F]_(n_in, n_hid)) b
    P B lg (data : Tensor F) mode :
  mode <> "batch" -> mode <> "sample" ->
  let w := World (model dev al b P B) lg in
  (exists e, seq_phase data mode w = Failed e w)
  /\ (ncols data = n_in ->
      seq_phase data mode w = Failed (ValueError "Mode not supported") w).
Proof.
move=> /String.eqb_neq Eb /String.eqb_neq Es w.
case: data => n c X /=; have [ec|ne] := eqVneq c n_in; last first.
  rewrite seq_phase_neq //; split; first by exists shape_error.
  by move/eqP; rewrite (negPf ne).
subst c; rewrite seq_phase_mode //; split=> //.
by eexists.
Qed.

(** C9 (fresh model).  A newly constructed model has P and Beta equal to
    the zero matrices of shapes hidden_dim x hidden_dim and
    hidden_dim x input_dim, and predict on any batch of width input_dim
    returns the zero matrix with the rows of the batch and input_dim
    columns, leaving the object unchanged. *)
Theorem fresh_model_predicts_zero act n_in n_hid dev
    (al : 'M[F]_(n_in, n_hid)) b m :
  __init__ act n_in n_hid dev al b = Ok m ->
  [/\ __p m = mkT (0 : 'M[F]_(n_hid, n_hid)),
      __beta m = mkT (0 : 'M[F]_(n_hid, n_in))
    & forall lg n (X : 'M[F]_(n, n_in)),
        predict (mkT X) (World m lg)
        = Done (mkT (0 : 'M[F]_(n, n_in))) (World m lg)].
Proof.
move/init_fresh=> ->; split=> // lg n X.
by rewrite predictE mulmx0.
Qed.

(** C10 (no division by zero).  For a positive semidefinite P and a hidden
    column vector H the denominator 1 + Ht P H of the sample update is at
    least 1.  Positive semidefiniteness of P holds after init_phase, is
    kept by every batch-mode and sample-mode update, and so holds in every
    state the object can be in; from a state with such a P a sample-mode
    call on one row never divides by zero. *)
Theorem sample_denominator_ge1 :
  [/\ forall h (P : 'M[F]_h) (Hc : 'cV[F]_h),
        psd P -> 1 <= 1 + (Hc^T *m (P *m Hc)) 0 0,
      forall n_in n_hid dev (al : 'M[F]_(n_in, n_hid)) b P B lg
             n (X : 'M[F]_(n, n_in)),
        exists2 w', final (init_phase (mkT X) (World (model dev al b P B) lg))
                    = Some w' & psd_state w',
      forall (w : world F) data mode w',
        psd_state w -> (mode = "sample" -> nrows data = 1%N) ->
        final (seq_phase data mode w) = Some w' -> psd_state w',
      forall w, reachable w -> psd_state w
    & forall (w : world F) data, psd_state w -> nrows data = 1%N ->
        seq_phase data "sample" w <> Lost].
Proof.
split.
- move=> h P Hc pP; rewrite -{2}[Hc]trmxK.
  exact: (denom_ge1 Hc^T pP).
- move=> n_in n_hid dev al b P B lg n X; rewrite init_phaseE /=.
  eexists; first by [].
  by do 7!eexists; split; [by [] | exact: psd_pinv_gram].
- move=> w data mode w'; apply: state_inv_seq_phase => h n P H.
  exact: psd_woodbury.
- move=> w /reachable_wf [n_in [n_hid [dev [al [b [P [B [E [_ pP]]]]]]]]].
  by exists n_in, n_hid, dev, al, b, P, B.
- move=> [s lg] data [n_in [n_hid [dev [al [b [P [B [/= -> pP]]]]]]]].
  case: data => n c X /= n1; move: n1 X => -> X.
  have [ec|ne] := eqVneq c n_in; last by rewrite seq_phase_neq.
  subst c; rewrite seq_phase_sampleE //.
  exact: (denom_neq0 _ pP).
Qed.

(* -------------------------------------------------------------------- *)
(* What the methods keep, on any object and any tensor.                  *)

Section Keeps.
Variable R : world F -> world F -> Prop.
Hypothesis R_refl : forall w, R w w.
Hypothesis R_trans : forall w1 w2 w3, R w1 w2 -> R w2 w3 -> R w1 w3.

Lemma keeps_bind A B (m : M F A) (k : A -> M F B) :
  keeps R m -> (forall a, keeps R (k a)) -> keeps R (bind m k).
Proof.
move=> Hm Hk w w'; rewrite /bind; case E: (m w) => [a w1|e w1|] //=.
  by move/Hk; apply: R_trans; apply: Hm; rewrite E.
by case=> <-; apply: Hm; rewrite E.
Qed.

Lemma keeps_lift A (r : result A) : keeps R (lift (F := F) r).
Proof. by case: r => [a|e|] w w' //= [<-]. Qed.

Lemma keeps_ret A (a : A) : keeps R (ret (F := F) a).
Proof. by move=> w w' [<-]. Qed.

Lemma keeps_raise A e : keeps R (raise e : M F A).
Proof. by move=> w w' [<-]. Qed.

Lemma keeps_get_self : keeps R (@get_self F).
Proof. by move=> w w' [<-]. Qed.

Lemma keeps_hidden_layer data : keeps R (hidden_layer (F := F) data).
Proof.
apply: keeps_bind; first exact: keeps_get_self.
move=> s; apply: keeps_bind; first exact: keeps_lift.
move=> xa; apply: keeps_bind; first exact: keeps_lift.
by move=> z; apply: keeps_ret.
Qed.

Lemma keeps_predict data : keeps R (predict (F := F) data).
Proof.
apply: keeps_bind; first exact: keeps_hidden_layer.
move=> H; apply: keeps_bind; first exact: keeps_get_self.
by move=> s; apply: keeps_lift.
Qed.

End Keeps.

Lemma same_frame_refl (w : world F) : same_frame w w.
Proof. by []. Qed.

Lemma same_frame_trans (w1 w2 w3 : world F) :
  same_frame w1 w2 -> same_frame w2 w3 -> same_frame w1 w3.
Proof.
move=> [[a1 a2 a3] [a4 a5 a6 a7]] [[b1 b2 b3] [b4 b5 b6 b7]].
by split; split; [rewrite b1|rewrite b2|rewrite b3|rewrite b4|rewrite b5|rewrite b6|rewrite b7].
Qed.

Local Notation sframe := (@same_frame F).

Lemma keeps_set_p t : keeps sframe (set_p (F := F) t).
Proof. by move=> w w' [<-]. Qed.

Lemma keeps_set_beta t : keeps sframe (set_beta (F := F) t).
Proof. by move=> w w' [<-]. Qed.

Lemma keeps_assert_cond c msg : keeps sframe (assert_cond (F := F) c msg).
Proof. by case: c => w w' [<-]. Qed.

Ltac keeps_step :=
  first [ exact: (keeps_get_self (R := sframe) same_frame_refl)
        | exact: (keeps_lift (R := sframe) same_frame_refl)
        | exact: (keeps_ret (R := sframe) same_frame_refl)
        | exact: (keeps_raise (R := sframe) same_frame_refl)
        | exact: keeps_assert_cond
        | exact: keeps_set_p
        | exact: keeps_set_beta
        | exact: (keeps_hidden_layer (R := sframe) same_frame_refl
                    same_frame_trans) ].

Ltac keeps_run :=
  repeat (first [ keeps_step
                | apply: (keeps_bind (R := sframe) same_frame_trans); [ | intro ] ]).

Lemma keeps_init_phase data : keeps sframe (init_phase (F := F) data).
Proof. by rewrite /init_phase; keeps_run. Qed.

Lemma keeps_seq_phase data mode : keeps sframe (seq_phase (F := F) data mode).
Proof.
rewrite /seq_phase.
apply: (keeps_bind (R := sframe) same_frame_trans); first by keeps_step.
move=> H; apply: (keeps_bind (R := sframe) same_frame_trans); first by keeps_step.
move=> s; apply: (keeps_bind (R := sframe) same_frame_trans); last by move=> _; keeps_run.
case: String.eqb.
  by keeps_run.
case: String.eqb; last by keeps_step.
by keeps_run.
Qed.


(* -------------------------------------------------------------------- *)
(* predict and encoded_representation.                                   *)

Lemma matmul_finite (a b : Tensor F) : matmul a b <> NonFinite.
Proof. by rewrite /matmul; case: eqP. Qed.

Lemma broadcast2_finite op (a b : Tensor F) : broadcast2 op a b <> NonFinite.
Proof. by rewrite /broadcast2; case: bdim => [r|] //; case: bdim. Qed.

Lemma hidden_layer_pure data (w : world F) :
  final (hidden_layer data w) = Some w.
Proof.
rewrite /hidden_layer /bind /= /lift.
case E: matmul => [xa|e|] //=; last by case: (matmul_finite E).
by case E': tadd => [z|e|] //=; case: (broadcast2_finite E').
Qed.

Lemma predict_neq data (w : world F) :
  ncols data != nrows (__alpha (self w)) ->
  predict data w = Failed shape_error w.
Proof. by move=> ne; rewrite /predict /bind hidden_layer_neq. Qed.

(** X1.  predict and encoded_representation never change the object or
    the log, whatever the state of the object and whatever tensor they
    are given, whether they return or raise. *)
Theorem predict_never_mutates (w : world F) (data : Tensor F) :
  final (predict data w) = Some w
  /\ final (encoded_representation data w) = Some w.
Proof.
split; last exact: hidden_layer_pure.
have := hidden_layer_pure data w; rewrite /predict /bind.
case: hidden_layer => [H w1|e w1|] //= [->]; rewrite /lift.
by case E: matmul => [y|e|] //; case: (matmul_finite E).
Qed.

(** X2.  On a well-shaped object predict returns exactly when the batch
    has width input_dim: the result is then H @ Beta, with the rows of the
    batch and input_dim columns; on any other width it raises the shape
    error of the projection. *)
Theorem predict_width n_in n_hid dev (al : 'M[F]_(n_in, n_hid)) b P B lg
    (data : Tensor F) :
  let w := World (model dev al b P B) lg in
  (ncols data = n_in ->
     exists2 Y, predict data w = Done Y w
              & nrows Y = nrows data /\ ncols Y = n_in)
  /\ (ncols data <> n_in -> predict data w = Failed shape_error w).
Proof.
case: data => n c X /=; split=> [ec|/eqP ne]; last exact: predict_neq.
by subst c; rewrite predictE; eexists.
Qed.

(** X3.  The projection and the prediction act on each row by itself:
    on a stacked batch [X1; X2] they return the stacked results. *)
Theorem predict_rowwise n_in n_hid dev (al : 'M[F]_(n_in, n_hid)) b P B lg
    m1 m2 (X1 : 'M[F]_(m1, n_in)) (X2 : 'M[F]_(m2, n_in)) :
  let w := World (model dev al b P B) lg in
  exists (H1 : 'M[F]_(m1, n_hid)) (H2 : 'M[F]_(m2, n_hid))
         (Y1 : 'M[F]_(m1, n_in)) (Y2 : 'M[F]_(m2, n_in)),
    [/\ encoded_representation (mkT X1) w = Done (mkT H1) w,
        encoded_representation (mkT X2) w = Done (mkT H2) w,
        encoded_representation (mkT (col_mx X1 X2)) w
          = Done (mkT (col_mx H1 H2)) w
      & [/\ predict (mkT X1) w = Done (mkT Y1) w,
            predict (mkT X2) w = Done (mkT Y2) w
          & predict (mkT (col_mx X1 X2)) w = Done (mkT (col_mx Y1 Y2)) w]].
Proof.
move=> w; exists (project al b X1), (project al b X2).
exists (project al b X1 *m B), (project al b X2 *m B).
rewrite /encoded_representation !hidden_layerE !predictE.
by rewrite project_col mul_col_mx.
Qed.


(* -------------------------------------------------------------------- *)
(* util.evaluate, and the training loss after init_phase.                *)

Lemma sqnorm_sum m n (A : 'M[F]_(m, n)) : sqnorm A = \sum_i \sum_j A i j ^+ 2.
Proof. by rewrite /sqnorm /mxtrace; apply: eq_bigr => i _; exact: gram_diag. Qed.

Lemma mse_lossE m n (A B : 'M[F]_(m, n)) :
  mse_loss (mkT A) (mkT B)
  = if (m * n == 0)%N then NonFinite
    else Ok (sqnorm (A - B) / (m * n)%:R).
Proof. by rewrite /mse_loss tsubE /numel /= sqnorm_sum. Qed.

Lemma evaluateE m n (A B : 'M[F]_(m, n)) :
  (0 < m)%N -> (0 < n)%N ->
  evaluate (mkT A) (mkT B) = Ok (sqnorm (A - B) / (m * n)%:R, 0%N).
Proof.
move=> m0 n0; rewrite /evaluate mse_lossE.
by rewrite muln_eq0 !eqn0Ngt m0 n0.
Qed.

Lemma bdimC a b : bdim a b = bdim b a.
Proof.
rewrite /bdim [b == a]eq_sym; case: eqP => [->|ab] //.
by case: eqP => [->|] //; case: eqP => [->|] //.
Qed.

Lemma gram_fix m n (H : 'M[F]_(m, n)) :
  H *m pinv (H^T *m H) *m (H^T *m H) = H.
Proof.
apply: trmx_inj; rewrite !trmx_mul trmxK (pinv_sym (sym_gram H)).
by rewrite !mulmxA pinv_normal.
Qed.

(** X4.  On two tensors of the same shape with at least one entry,
    util.evaluate returns the mean of the squared differences of the
    entries, sum over i, j of (A[i,j] - B[i,j])^2 divided by the number of
    entries, together with accuracy 0: this loss is never negative, and it
    is zero exactly when the prediction equals the data. *)
Theorem evaluate_zero_iff m n (A B : 'M[F]_(m, n)) :
  (0 < m)%N -> (0 < n)%N ->
  let loss := (\sum_i \sum_j (A i j - B i j) ^+ 2) / (m * n)%:R in
  [/\ evaluate (mkT A) (mkT B) = Ok (loss, 0%N), 0 <= loss
    & loss = 0 <-> A = B].
Proof.
move=> m0 n0 loss.
have lossE : loss = sqnorm (A - B) / (m * n)%:R.
  rewrite /loss sqnorm_sum; congr (_ / _).
  by apply: eq_bigr => i _; apply: eq_bigr => j _; rewrite !mxE.
have mn0 : 0 < (m * n)%:R :> F by rewrite ltr0n muln_gt0 m0.
rewrite lossE evaluateE //; split=> //.
  by rewrite divr_ge0 ?sqnorm_ge0 // ltW.
split=> [/eqP|->]; last by rewrite subrr /sqnorm mul0mx mxtrace0 mul0r.
rewrite mulf_eq0 invr_eq0 (gt_eqF mn0) orbF => /eqP/sqnorm_eq0/eqP.
by rewrite subr_eq0 => /eqP.
Qed.

(** X5.  util.evaluate does not depend on the order of its two arguments,
    whatever their shapes: the same loss, the same exception or the same
    non-finite result. *)
Theorem evaluate_symmetric (a b : Tensor F) : evaluate a b = evaluate b a.
Proof.
rewrite /evaluate /mse_loss /tsub /broadcast2 /numel.
rewrite [bdim (nrows b) _]bdimC [bdim (ncols b) _]bdimC.
case: bdim => [r|] //; case: bdim => [c|] //=.
case: ifP => // _; congr (Ok (_ / _, _)).
apply: eq_bigr => i _; apply: eq_bigr => j _.
by rewrite !mxE -sqrrN opprB.
Qed.

(** X7.  After init_phase on a batch X, predict on the same batch returns
    the least-squares reconstruction Y of X from its hidden representation
    H: the residual X - Y is orthogonal to the columns of H, and no output
    weights B reconstruct X with a smaller squared error than Y. *)
Theorem init_predict_least_squares n_in n_hid dev
    (al : 'M[F]_(n_in, n_hid)) b P B lg n (X : 'M[F]_(n, n_in)) :
  let H := map_mx torch_tanh (X *m al + rowbc n b) in
  exists w1 Beta1 Y,
    [/\ init_phase (mkT X) (World (model dev al b P B) lg) = Done Beta1 w1,
        predict (mkT X) w1 = Done (mkT Y) w1,
        H^T *m (X - Y) = 0
      & forall B', sqnorm (X - Y) <= sqnorm (X - H *m B')].
Proof.
move=> H; rewrite init_phaseE -/(project al b X) -/H.
set P1 := pinv _; set B1 := P1 *m _ *m X.
exists (World (model dev al b P1 B1) lg), (mkT B1), (H *m B1).
rewrite predictE; split=> //.
  by rewrite mulmxBr /B1 /P1 !mulmxA pinv_normal subrr.
by move=> B'; apply: pinv_lstsq.
Qed.

(** X8.  Data that the hidden layer can represent is reproduced exactly:
    when the batch X equals H B0 for some output weights B0, predict after
    init_phase on X returns X itself. *)
Theorem init_then_predict_exact n_in n_hid dev (al : 'M[F]_(n_in, n_hid)) b
    P B lg n (X : 'M[F]_(n, n_in)) (B0 : 'M[F]_(n_hid, n_in)) :
  X = map_mx torch_tanh (X *m al + rowbc n b) *m B0 ->
  exists w1 Beta1,
    init_phase (mkT X) (World (model dev al b P B) lg) = Done Beta1 w1
    /\ predict (mkT X) w1 = Done (mkT X) w1.
Proof.
rewrite -/(project al b X) => XE; rewrite init_phaseE.
set P1 := pinv _; set B1 := P1 *m _ *m X.
exists (World (model dev al b P1 B1) lg), (mkT B1); split=> //.
rewrite predictE; congr (Done (mkT _) _).
rewrite /B1 /P1 -/(project al b X); move: (project al b X) XE => H XE.
by rewrite [in LHS]XE !mulmxA -(mulmxA _ H^T H) gram_fix.
Qed.

(** X9.  init_phase minimises the training loss that util.evaluate
    measures: on a batch with at least one entry, the loss of the
    prediction after init_phase is at most the loss of H B' for any other
    output weights B'. *)
Theorem init_minimises_loss n_in n_hid dev (al : 'M[F]_(n_in, n_hid)) b P B lg
    n (X : 'M[F]_(n, n_in)) :
  (0 < n)%N -> (0 < n_in)%N ->
  let H := map_mx torch_tanh (X *m al + rowbc n b) in
  exists w1 Beta1 Y loss,
    [/\ init_phase (mkT X) (World (model dev al b P B) lg) = Done Beta1 w1,
        predict (mkT X) w1 = Done Y w1,
        evaluate (mkT X) Y = Ok (loss, 0%N)
      & forall B' : 'M[F]_(n_hid, n_in),
          exists2 loss', evaluate (mkT X) (mkT (H *m B'))
                                  = Ok (loss', 0%N) & loss <= loss'].
Proof.
move=> n0 i0 H; rewrite init_phaseE -/(project al b X) -/H.
set P1 := pinv _; set B1 := P1 *m _ *m X.
exists (World (model dev al b P1 B1) lg), (mkT B1), (mkT (H *m B1)).
eexists; split; [by [] | exact: predictE | exact: evaluateE |].
move=> B'; rewrite evaluateE //; eexists; first by [].
rewrite ler_pM2r ?invr_gt0 ?ltr0n ?muln_gt0 ?n0 //.
exact: pinv_lstsq.
Qed.


(* -------------------------------------------------------------------- *)
(* Sample mode on any number of rows.                                    *)

Lemma tdivE m n (A D : 'M[F]_(m, n)) :
  tdiv (mkT A) (mkT D)
  = if [forall i, forall j, D i j != 0]
    then Ok (mkT (\matrix_(i, j) (A i j / D i j))) else NonFinite.
Proof. by rewrite /tdiv /= !bdimxx !expand_id. Qed.

Lemma calc_beta_sample_rows n_in n_hid dev (al : 'M[F]_(n_in, n_hid)) b P B lg
    n (X : 'M[F]_(n, n_in)) (H : 'M[F]_(n, n_hid)) :
  calc_beta_sample (mkT X) (mkT H^T) (World (model dev al b P B) lg)
  = Done tt (World (model dev al b P (rls_beta P B H X)) lg).
Proof. by rewrite /calc_beta_sample; run_tensors; rewrite /rls_beta trmxK. Qed.

Lemma calc_p_sample_rows n_in n_hid dev (al : 'M[F]_(n_in, n_hid)) b P B lg
    n (H : 'M[F]_(n, n_hid)) :
  match calc_p_sample (mkT H^T) (World (model dev al b P B) lg) with
  | Done _ w' => exists P', w' = World (model dev al b P' B) lg
  | Failed e w' => e = shape_error /\ w' = World (model dev al b P B) lg
  | Lost => True
  end.
Proof.
rewrite /calc_p_sample; run_tensors; rewrite /tdiv /=.
case: bdim => [r|] //=; case: ifP => // _ /=.
rewrite /isub /inplace /=; case: ifP => // _ /=.
by eexists.
Qed.

Lemma seq_phase_sample_split n_in n_hid dev (al : 'M[F]_(n_in, n_hid)) b P B lg
    n (X : 'M[F]_(n, n_in)) :
  let w := World (model dev al b P B) lg in
  let H := project al b X in
  seq_phase (mkT X) "sample" w
  = match calc_p_sample (mkT H^T) w with
    | Done _ w1 =>
        match calc_beta_sample (mkT X) (mkT H^T) w1 with
        | Done _ w2 => Done (__beta (self w2)) w2
        | Failed e w2 => Failed e w2
        | Lost => Lost
        end
    | Failed e w1 => Failed e w1
    | Lost => Lost
    end.
Proof.
move=> w H; rewrite /seq_phase /bind hidden_layerE /= eqxx assert_cond_true.
by rewrite -/H; case: calc_p_sample => [[] w1|e w1|].
Qed.

(** X10.  The sample-mode update on one row x of width input_dim, as the
    code computes it: with h the hidden row of x and d = 1 + h P ht, the
    call replaces P by P - (P ht h P) / d and then Beta by
    Beta + P_new ht (x - h Beta) and returns the new Beta when d is not
    zero; when d is zero the quotient is not finite. *)
Theorem sample_update_formula n_in n_hid dev (al : 'M[F]_(n_in, n_hid)) b
    P B lg (x : 'rV[F]_n_in) :
  let w := World (model dev al b P B) lg in
  let h := map_mx torch_tanh (x *m al + rowbc 1 b) in
  let d := 1 + (h *m P *m h^T) 0 0 in
  let P_new := P - d^-1 *: (P *m h^T *m h *m P) in
  let Beta_new := B + P_new *m h^T *m (x - h *m B) in
  (d != 0 -> seq_phase (mkT x) "sample" w
             = Done (mkT Beta_new) (World (model dev al b P_new Beta_new) lg))
  /\ (d = 0 -> seq_phase (mkT x) "sample" w = Lost).
Proof.
move=> w h d P_new Beta_new.
have dE : d = denom P (project al b x) by rewrite /d /denom mulmxA.
split=> d0; last by apply: seq_phase_sample_lost; rewrite -dE.
rewrite seq_phase_sampleE; first by rewrite -dE.
by rewrite /sherman /rls_beta -dE.
Qed.

(** X11.  Sample mode takes one row: on a batch of width input_dim with n
    rows, n different from 1 and from hidden_dim (and hidden_dim not 1),
    seq_phase in sample mode raises the shape error of the quotient's
    broadcast and leaves P, Beta and the log as they were. *)
Theorem sample_mode_many_rows n_in n_hid dev (al : 'M[F]_(n_in, n_hid)) b
    P B lg n (X : 'M[F]_(n, n_in)) :
  n != 1%N -> n != n_hid -> n_hid != 1%N ->
  seq_phase (mkT X) "sample" (World (model dev al b P B) lg)
  = Failed shape_error (World (model dev al b P B) lg).
Proof.
move=> n1 nh h1; apply: seq_phase_sample_rows.
by rewrite /bdim eq_sym (negPf nh) (negPf n1) (negPf h1).
Qed.

(** X12.  On a batch of exactly hidden_dim rows sample mode does not
    fail: the quotient of the P update is then taken entry by entry,
    P_new[i,j] = P[i,j] - (P Ht H P)[i,j] / (1 + (H P Ht)[i,j]), provided
    no entry of 1 + H P Ht is zero, and Beta is updated with this P_new. *)
Theorem sample_mode_hidden_rows n_in n_hid dev (al : 'M[F]_(n_in, n_hid)) b
    (P : 'M[F]_n_hid) (B : 'M[F]_(n_hid, n_in)) lg (X : 'M[F]_(n_hid, n_in)) :
  let H := map_mx torch_tanh (X *m al + rowbc n_hid b) in
  let P_new :=
    \matrix_(i, j) (P i j - (P *m H^T *m H *m P) i j
                            / (1 + (H *m P *m H^T) i j)) in
  let Beta_new := B + P_new *m H^T *m (X - H *m B) in
  (forall i j, 1 + (H *m P *m H^T) i j != 0) ->
  seq_phase (mkT X) "sample" (World (model dev al b P B) lg)
  = Done (mkT Beta_new) (World (model dev al b P_new Beta_new) lg).
Proof.
move=> H P_new Beta_new d0; rewrite seq_phase_sample_split -/(project al b X).
rewrite -/H.
have -> : calc_p_sample (mkT H^T) (World (model dev al b P B) lg)
          = Done tt (World (model dev al b P_new B) lg).
  rewrite /calc_p_sample; run_tensors; rewrite /scalar_add /= tdivE.
  have -> : [forall i, forall j,
               (map_mx (fun x => 1 + x) (H^T^T *m (P *m H^T))) i j != 0].
    apply/forallP => i; apply/forallP => j.
    by rewrite mxE trmxK mulmxA; apply: d0.
  rewrite isubE /=; congr (Done tt (World (model dev al b _ B) lg)).
  by rewrite !trmxK (mulmxA H); apply/matrixP => i j; rewrite !mxE.
by rewrite calc_beta_sample_rows.
Qed.

(** X13.  seq_phase is atomic on failure: on a well-shaped object,
    whatever the tensor and the mode, a call that raises leaves P, Beta
    and the log exactly as they were. *)
Theorem seq_phase_atomic n_in n_hid dev (al : 'M[F]_(n_in, n_hid)) b P B lg
    (data : Tensor F) mode e w' :
  seq_phase data mode (World (model dev al b P B) lg) = Failed e w' ->
  w' = World (model dev al b P B) lg.
Proof.
case: data => n c X; have [ec|ne] := eqVneq c n_in; last first.
  by rewrite seq_phase_neq // => -[_ <-].
subst c; case Eb: (String.eqb mode "batch").
  by move/String.eqb_eq: Eb => ->; rewrite seq_phase_batchE.
case Es: (String.eqb mode "sample"); last first.
  by rewrite seq_phase_mode // => -[_ <-].
move/String.eqb_eq: Es => ->; rewrite seq_phase_sample_split.
have := calc_p_sample_rows dev al b P B lg (project al b X).
case: calc_p_sample => [[] w1 [P1 ->]|e1 w1 [_ ->] [_ <-]|] //.
by rewrite calc_beta_sample_rows.
Qed.

(* -------------------------------------------------------------------- *)
(* Edge cases of training, what training keeps, and the shapes of a      *)
(* reachable object.                                                     *)

Lemma woodbury0 h n (H : 'M[F]_(n, h)) : woodbury 0 H = 0.
Proof. by rewrite /woodbury !mul0mx subr0. Qed.

Lemma rls_beta0 h d n (B : 'M[F]_(h, d)) (H : 'M[F]_(n, h)) X :
  rls_beta 0 B H X = B.
Proof. by rewrite /rls_beta !mul0mx addr0. Qed.

Lemma psd1 n : psd (1%:M : 'M[F]_n).
Proof. by move=> x; rewrite mulmx1; exact: gram_diag_ge0. Qed.

(** X14.  init_phase on a batch without rows (of width input_dim) returns
    and resets the model: P and Beta become the zero matrices, whatever
    they were. *)
Theorem init_phase_empty_batch n_in n_hid dev (al : 'M[F]_(n_in, n_hid)) b
    P B lg (X : 'M[F]_(0, n_in)) :
  init_phase (mkT X) (World (model dev al b P B) lg)
  = Done (mkT (0 : 'M[F]_(n_hid, n_in))) (World (model dev al b 0 0) lg).
Proof.
rewrite init_phaseE [project al b X]flatmx0 mulmx0 pinv0 !mul0mx.
by [].
Qed.

(** X15.  Sequential training does not start by itself: while P is the
    zero matrix (as in a model on which init_phase was never called),
    seq_phase in batch mode on any batch of width input_dim, and in sample
    mode on any row, returns the old Beta and changes nothing. *)
Theorem seq_phase_without_init n_in n_hid dev (al : 'M[F]_(n_in, n_hid)) b
    (B : 'M[F]_(n_hid, n_in)) lg :
  let w := World (model dev al b 0 B) lg in
  (forall n (X : 'M[F]_(n, n_in)),
     seq_phase (mkT X) "batch" w = Done (mkT B) w)
  /\ (forall x : 'rV[F]_n_in, seq_phase (mkT x) "sample" w = Done (mkT B) w).
Proof.
move=> w.
have batch0 n (X : 'M[F]_(n, n_in)) :
    seq_phase (mkT X) "batch" w = Done (mkT B) w.
  by rewrite seq_phase_batchE woodbury0 rls_beta0.
split=> // x; rewrite -seq_phase_one_row ?batch0 //.
by rewrite /denom mul0mx mulmx0 mxE addr0 oner_neq0.
Qed.

(** X16.  What training never touches: in whatever state the object is
    and whatever tensor and mode they are given, init_phase and seq_phase
    leave the name, input_dim, hidden_dim, the activation, alpha, the bias
    and the device unchanged, whether they return or raise; only P, Beta
    and the log can change. *)
Theorem training_keeps_frame (data : Tensor F) (mode : string) :
  keeps sframe (init_phase data) /\ keeps sframe (seq_phase data mode).
Proof. by split; [exact: keeps_init_phase | exact: keeps_seq_phase]. Qed.

Local Notation attainable := (attainable torch_tanh).

(* the shapes the constructor gives are kept by every call *)
Lemma shaped_predict data (w : world F) w' :
  state_inv (fun _ _ => True) w -> final (predict data w) = Some w' ->
  state_inv (fun _ _ => True) w'.
Proof.
move=> sw; rewrite /predict /bind.
have := hidden_layer_pure data w.
case: hidden_layer => [H w1|e w1|] //= [->]; last by case=> <-.
by rewrite /lift; case: matmul => [y|e|] //= [<-].
Qed.

Lemma shaped_seq_phase data mode (w : world F) w' :
  state_inv (fun _ _ => True) w -> final (seq_phase data mode w) = Some w' ->
  state_inv (fun _ _ => True) w'.
Proof.
case: w => s lg [n_in [n_hid [dev [al [b [P [B [/= -> _]]]]]]]].
case: data => n c X; have [ec|ne] := eqVneq c n_in; last first.
  rewrite seq_phase_neq // => -[<-].
  by exists n_in, n_hid, dev, al, b, P, B.
subst c; case Eb: (String.eqb mode "batch").
  move/String.eqb_eq: Eb => ->; rewrite seq_phase_batchE => -[<-].
  by do 7!eexists.
case Es: (String.eqb mode "sample"); last first.
  rewrite seq_phase_mode // => -[<-].
  by exists n_in, n_hid, dev, al, b, P, B.
move/String.eqb_eq: Es => ->; rewrite seq_phase_sample_split.
have := calc_p_sample_rows dev al b P B lg (project al b X).
case: calc_p_sample => [[] w1 [P1 ->]|e1 w1 [_ ->] [<-]|] //.
  by rewrite calc_beta_sample_rows => -[<-]; do 7!eexists.
by exists n_in, n_hid, dev, al, b, P, B.
Qed.

Lemma attainable_shaped w : attainable w -> state_inv (fun _ _ => True) w.
Proof.
elim=> [act n_in n_hid dev al b m|w0 data w1 _|w0 data w1 _|w0 data mode w1 _].
- by move/init_fresh=> ->; do 7!eexists.
- exact: shaped_predict.
- exact: state_inv_init_phase.
- exact: shaped_seq_phase.
Qed.

(** X17.  In every state the object can be in, however it was used
    (constructed, then any calls of predict, init_phase and seq_phase, on
    any tensors and in any mode, sample mode on several rows included),
    the properties name, input_shape and hidden_shape return "AdaptAE",
    (input_dim,) and (hidden_dim,), and the shapes of the tensors agree
    with them: alpha is input_dim x hidden_dim, the bias has hidden_dim
    entries, P is hidden_dim x hidden_dim and Beta is
    hidden_dim x input_dim. *)
Theorem reachable_shapes (w : world F) :
  attainable w ->
  let s := self w in
  let n_in := __n_input_nodes s in
  let n_hid := __n_hidden_nodes s in
  [/\ [/\ name w = Done "AdaptAE" w, input_shape w = Done [:: n_in] w
        & hidden_shape w = Done [:: n_hid] w],
      (nrows (__alpha s), ncols (__alpha s)) = (n_in, n_hid),
      (nrows (__bias s), ncols (__bias s)) = (1%N, n_hid),
      (nrows (__p s), ncols (__p s)) = (n_hid, n_hid)
    & (nrows (__beta s), ncols (__beta s)) = (n_hid, n_in)].
Proof.
move/attainable_shaped; case: w => s lg.
by case=> [n_in [n_hid [dev [al [b [P [B [/= -> _]]]]]]]].
Qed.

(* -------------------------------------------------------------------- *)
(* How batch updates compose, and what they accumulate.                  *)

(* the update of P depends on the batch only through Ht H *)
Lemma woodbury_gram h n (P : 'M[F]_h) (H : 'M[F]_(n, h)) :
  psd P -> woodbury P H = invmx (1%:M + P *m (H^T *m H)) *m P.
Proof.
move=> pP; have uS := innov_unit H pP.
have := woodbury_unit uS; rewrite -[P *m _ *m _]mulmxA => uA.
apply: (can_inj (mulKmx uA)); rewrite mulKVmx //.
by rewrite mulmxA; exact: woodbury_left.
Qed.

(* and that of Beta only through Ht H and Ht X *)
Lemma rls_beta_gram h d n (P' : 'M[F]_h) (B : 'M[F]_(h, d))
    (H : 'M[F]_(n, h)) (X : 'M[F]_(n, d)) :
  rls_beta P' B H X = B + P' *m (H^T *m X - H^T *m H *m B).
Proof. by rewrite /rls_beta !mulmxBr !mulmxA. Qed.

Lemma gram_col m1 m2 h d (H1 : 'M[F]_(m1, h)) (H2 : 'M[F]_(m2, h))
    (X1 : 'M[F]_(m1, d)) (X2 : 'M[F]_(m2, d)) :
  (col_mx H1 H2)^T *m col_mx X1 X2 = H1^T *m X1 + H2^T *m X2.
Proof. by rewrite tr_col_mx mul_row_col. Qed.

(* the information form: when P inverts G, the updated P inverts
   G + Ht H *)
Lemma woodbury_info h n (P G : 'M[F]_h) (H : 'M[F]_(n, h)) :
  psd P -> P *m G = 1%:M ->
  woodbury P H *m (G + H^T *m H) = 1%:M.
Proof.
move=> pP PG; have uS := innov_unit H pP.
have GP : G *m P = 1%:M by apply/mulmx1C.
have := woodbury_right uS; move: (woodbury P H) => P1 R1.
rewrite -PG -{1}R1 -mulmxA; congr (_ *m _).
by rewrite mulmxDl mul1mx -!mulmxA PG mulmx1.
Qed.

(** X18.  Splitting a batch does not change the result: from a state
    whose P is positive semidefinite, seq_phase in batch mode on X1 and
    then on X2 ends in the state, and returns the Beta, of one call on
    the stacked batch [X1; X2]. *)
Theorem batch_split n_in n_hid dev (al : 'M[F]_(n_in, n_hid)) b P B lg
    m1 m2 (X1 : 'M[F]_(m1, n_in)) (X2 : 'M[F]_(m2, n_in)) :
  psd P ->
  let w := World (model dev al b P B) lg in
  exists Beta1 w1 Beta2 w2,
    [/\ seq_phase (mkT X1) "batch" w = Done Beta1 w1,
        seq_phase (mkT X2) "batch" w1 = Done Beta2 w2
      & seq_phase (mkT (col_mx X1 X2)) "batch" w = Done Beta2 w2].
Proof.
move=> pP w; rewrite /w !seq_phase_batchE project_col.
do 4!eexists; split; [by [] | exact: seq_phase_batchE |].
by rewrite (rls_beta_col _ _ pP) (woodbury_col _ _ pP).
Qed.

(** X19.  The order of the batches does not matter: from a state whose P
    is positive semidefinite, batch-mode seq_phase on X1 then X2 and on X2
    then X1 end in the same state and return the same Beta. *)
Theorem batch_order_irrelevant n_in n_hid dev (al : 'M[F]_(n_in, n_hid)) b
    P B lg m1 m2 (X1 : 'M[F]_(m1, n_in)) (X2 : 'M[F]_(m2, n_in)) :
  psd P ->
  let w := World (model dev al b P B) lg in
  exists Beta1 w1 Beta1' w1' Beta2 w2,
    [/\ seq_phase (mkT X1) "batch" w = Done Beta1 w1,
        seq_phase (mkT X2) "batch" w1 = Done Beta2 w2,
        seq_phase (mkT X2) "batch" w = Done Beta1' w1'
      & seq_phase (mkT X1) "batch" w1' = Done Beta2 w2].
Proof.
move=> pP w; rewrite /w !seq_phase_batchE.
do 6!eexists; split; [by [] | exact: seq_phase_batchE | by [] |].
rewrite seq_phase_batchE.
move: (project al b X1) (project al b X2) => H1 H2.
have EP : woodbury (woodbury P H2) H1 = woodbury (woodbury P H1) H2.
  rewrite -!(woodbury_col _ _ pP) !woodbury_gram // !gram_col.
  by rewrite [H2^T *m H2 + _]addrC.
have EB : rls_beta (woodbury (woodbury P H2) H1)
            (rls_beta (woodbury P H2) B H2 X2) H1 X1
          = rls_beta (woodbury (woodbury P H1) H2)
              (rls_beta (woodbury P H1) B H1 X1) H2 X2.
  rewrite -!(rls_beta_col _ _ pP) !rls_beta_gram !woodbury_gram // !gram_col.
  by rewrite [H2^T *m H2 + _]addrC [H2^T *m X2 + _]addrC.
by rewrite EB EP.
Qed.

(** X20.  Recursive training agrees with training from scratch: when the
    hidden representation H0 of the initial batch X0 has an invertible
    Ht H, init_phase on X0 followed by a batch-mode seq_phase on X1 ends
    in the state, and returns the Beta, that init_phase on all the data
    [X0; X1] gives. *)
Theorem sequential_equals_retraining n_in n_hid dev
    (al : 'M[F]_(n_in, n_hid)) b P B lg
    n0 n1 (X0 : 'M[F]_(n0, n_in)) (X1 : 'M[F]_(n1, n_in)) :
  let H0 := map_mx torch_tanh (X0 *m al + rowbc n0 b) in
  H0^T *m H0 \in unitmx ->
  let w := World (model dev al b P B) lg in
  exists Beta0 w0 Beta1 w1,
    [/\ init_phase (mkT X0) w = Done Beta0 w0,
        seq_phase (mkT X1) "batch" w0 = Done Beta1 w1
      & init_phase (mkT (col_mx X0 X1)) w = Done Beta1 w1].
Proof.
move=> H0 uG w; rewrite /w !init_phaseE project_col.
do 4!eexists; split; [by [] | exact: seq_phase_batchE |].
move: uG; rewrite {}/H0 -/(project al b X0).
move: (project al b X0) (project al b X1) => H0 H1 uG.
have pP0 : psd (pinv (H0^T *m H0)) by exact: psd_pinv_gram.
have := woodbury_info H1 pP0; rewrite pinv_unit // => /(_ _ (mulVmx uG)).
move: (woodbury _ H1) => P1 inv1.
have [_ uG1] := mulmx1_unit inv1.
have EP : pinv ((col_mx H0 H1)^T *m col_mx H0 H1) = P1.
  rewrite gram_col pinv_unit //; apply: (can_inj (mulmxK uG1)).
  by rewrite mulVmx.
rewrite EP rls_beta_gram; set B0 := invmx _ *m _ *m X0.
have GB : H0^T *m H0 *m B0 = H0^T *m X0.
  by rewrite /B0 !mulmxA mulmxV // mul1mx.
have EB : P1 *m (col_mx H0 H1)^T *m col_mx X0 X1
          = B0 + P1 *m (H1^T *m X1 - H1^T *m H1 *m B0).
  rewrite -mulmxA gram_col -[X in _ = X + _]mul1mx -inv1 -mulmxA -mulmxDr.
  congr (_ *m _); rewrite mulmxDl GB.
  by rewrite addrACA subrr addr0.
by rewrite EB.
Qed.

(* the update of P takes a positive semidefinite matrix away from P *)
Lemma woodbury_le h n (P : 'M[F]_h) (H : 'M[F]_(n, h)) :
  symmetric P -> psd P -> psd (P - woodbury P H).
Proof.
move=> sP pP x; have uS := innov_unit H pP.
have sSi := symmetric_inv (sym_innov H sP).
rewrite /woodbury pinv_unit // opprB addrCA subrr addr0.
pose y := x *m P *m H^T *m invmx (innov P H).
have -> : x *m (P *m H^T *m invmx (innov P H) *m (H *m P)) *m x^T
          = y *m innov P H *m y^T.
  rewrite /y !trmx_mul sSi sP trmxK !mulmxA.
  by rewrite -[_ *m invmx _ *m innov P H]mulmxA mulVmx // mulmx1.
rewrite {1}/innov mulmxDr mulmx1 mulmxDl mxE; apply: addr_ge0.
  by rewrite !mulmxA -[_ *m H^T *m y^T]mulmxA -trmx_mul; apply: pP.
exact: gram_diag_ge0.
Qed.

(** X21.  P is the inverse of the accumulated Ht H: if P is positive
    semidefinite and inverts a matrix G, then after seq_phase in batch
    mode on a batch with hidden representation H the new P inverts
    G + Ht H. *)
Theorem batch_information_form n_in n_hid dev (al : 'M[F]_(n_in, n_hid)) b
    P B lg n (X : 'M[F]_(n, n_in)) (G : 'M[F]_n_hid) :
  psd P -> P *m G = 1%:M ->
  let H := map_mx torch_tanh (X *m al + rowbc n b) in
  exists (Beta_new : 'M[F]_(n_hid, n_in)) (P_new : 'M[F]_n_hid),
    seq_phase (mkT X) "batch" (World (model dev al b P B) lg)
    = Done (mkT Beta_new) (World (model dev al b P_new Beta_new) lg)
    /\ P_new *m (G + H^T *m H) = 1%:M.
Proof.
move=> pP PG H; rewrite seq_phase_batchE.
do 2!eexists; split; first by [].
exact: woodbury_info.
Qed.

(** X22.  A batch-mode update never enlarges P: from a symmetric
    positive semidefinite P, the new P satisfies
    0 <= x P_new xt <= x P xt for every row vector x. *)
Theorem batch_update_shrinks_P n_in n_hid dev (al : 'M[F]_(n_in, n_hid)) b
    P B lg n (X : 'M[F]_(n, n_in)) :
  symmetric P -> psd P ->
  exists (Beta_new : 'M[F]_(n_hid, n_in)) (P_new : 'M[F]_n_hid),
    seq_phase (mkT X) "batch" (World (model dev al b P B) lg)
    = Done (mkT Beta_new) (World (model dev al b P_new Beta_new) lg)
    /\ forall x : 'rV[F]_n_hid,
         0 <= (x *m P_new *m x^T) 0 0 <= (x *m P *m x^T) 0 0.
Proof.
move=> sP pP; rewrite seq_phase_batchE.
do 2!eexists; split; first by [].
move=> x; rewrite (psd_woodbury _ pP) /=.
have := woodbury_le (project al b X) sP pP x.
by rewrite mulmxBr mulmxBl !mxE subr_ge0.
Qed.

(* -------------------------------------------------------------------- *)
(* The argument checks of train-ps-elm-ae.py.                            *)

(* a float that passes the test of get_args: not (sp <= 0 or sp >= 1) *)
Lemma py_le_between (sp : pyfloat F) :
  ~~ (py_le sp (Finite 0) || py_le (Finite 1) sp)
  <-> sp = NaN F \/ exists2 a, sp = Finite a & 0 < a < 1.
Proof.
case: sp => [a| | |] /=.
- rewrite negb_or -!ltNge; split=> [a01|[//|[a' [->] //]]].
  by right; exists a.
- by split=> // -[//|[a']].
- by split=> // -[//|[a']].
- by split=> // _; left.
Qed.

Lemma default_seq_prop_between :
  ~~ (py_le (DEFAULT_SEQ_PROP F) (Finite 0)
      || py_le (Finite 1) (DEFAULT_SEQ_PROP F)).
Proof.
apply/py_le_between; right; exists (99%:R / 100%:R) => //.
rewrite divr_gt0 ?ltr0n //= ltr_pdivrMr ?ltr0n // mul1r.
by rewrite ltr_nat.
Qed.

(* the three checks of get_args, in the order in which they are made *)
Lemma get_argsE (args : Namespace F) :
  get_args args
  = if ~~ String.eqb (args_mode args) "batch" && isSome (args_batch_size args)
    then exit_with_error _ "Batch size is not used in sample mode"
    else if (if args_seq_prop args is Some sp
             then py_le sp (Finite 0) || py_le (Finite 1) sp else false)
    then exit_with_error _ "Sequential proportion must be between 0 and 1"
    else if args_save_results args && ~~ isSome (args_result_strategy args)
    then exit_with_error _ "Must specify a result strategy if saving results"
    else Returned
           (mkArguments (args_mode args) (args_dataset args)
              (if String.eqb (args_mode args) "batch"
               then odflt DEFAULT_BATCH_SIZE (args_batch_size args) else 1)
              (args_device args)
              (odflt (DEFAULT_SEQ_PROP F) (args_seq_prop args))
              (args_generate_imgs args) (args_save_results args)
              (args_phased args) (args_result_strategy args)
              (args_num_images args)).
Proof.
rewrite /get_args; case: String.eqb; case: (args_batch_size args) => [bs|] //=;
  case: (args_seq_prop args) => [sp|] //=; try case: ifP => //= _;
  by case: (args_save_results args) => //=;
     case: (args_result_strategy args).
Qed.

(* what the three checks test *)
Lemma check_batch_size (args : Namespace F) :
  ~~ String.eqb (args_mode args) "batch" && isSome (args_batch_size args)
  = false
  <-> args_mode args = "batch" \/ args_batch_size args = None.
Proof.
case: String.eqb_spec => [->|ne] /=; first by split=> // _; left.
case: (args_batch_size args) => [bs|] /=; first by split=> // -[].
by split=> // _; right.
Qed.

Lemma check_seq_prop (args : Namespace F) :
  (if args_seq_prop args is Some sp
   then py_le sp (Finite 0) || py_le (Finite 1) sp else false) = false
  <-> forall sp, args_seq_prop args = Some sp ->
        sp = NaN F \/ exists2 a, sp = Finite a & 0 < a < 1.
Proof.
case: (args_seq_prop args) => [sp|]; last by split.
split=> [/negbT/py_le_between ok sp' [<-] //|/(_ sp erefl)/py_le_between].
exact: negbTE.
Qed.

Lemma check_result_strategy (args : Namespace F) :
  args_save_results args && ~~ isSome (args_result_strategy args) = false
  <-> (args_save_results args -> args_result_strategy args <> None).
Proof.
case: (args_save_results args) => /=; last by split.
case: (args_result_strategy args) => [rs|] /=; first by split.
by split=> // /(_ isT).
Qed.

(** X23.  get_args returns exactly when the three checks pass: a batch
    size is given only in batch mode, the sequential proportion (when
    given) is not <= 0 and not >= 1, that is, it lies strictly between 0
    and 1 or is nan, and a result strategy is given whenever results are
    to be saved.  In every other case it exits. *)
Theorem get_args_accepts (args : Namespace F) :
  (exists r, get_args args = Returned r)
  <-> [/\ args_mode args = "batch" \/ args_batch_size args = None,
          forall sp, args_seq_prop args = Some sp ->
            sp = NaN F \/ exists2 a, sp = Finite a & 0 < a < 1
        & args_save_results args -> args_result_strategy args <> None].
Proof.
rewrite get_argsE; split=> [[r]|[/check_batch_size -> /check_seq_prop ->]].
  case: ifP => // /check_batch_size c1; case: ifP => // /check_seq_prop c2.
  by case: ifP => // /check_result_strategy c3 _.
by move/check_result_strategy => ->; eexists.
Qed.

(** X24.  What get_args returns: the batch size is 1 outside batch mode
    and, in batch mode, the given size as it is (no sign check) or 10 when
    none is given; the sequential proportion is the given one or 0.99, and
    is nan or strictly between 0 and 1; a result strategy is present when
    results are saved; the other arguments pass through unchanged. *)
Theorem get_args_result (args : Namespace F) (r : Arguments_ F) :
  get_args args = Returned r ->
  [/\ ret_batch_size r
      = (if String.eqb (args_mode args) "batch"
         then odflt DEFAULT_BATCH_SIZE (args_batch_size args) else 1),
      ret_seq_prop r = odflt (DEFAULT_SEQ_PROP F) (args_seq_prop args)
      /\ (ret_seq_prop r = NaN F
          \/ exists2 a, ret_seq_prop r = Finite a & 0 < a < 1),
      ret_save_results r -> ret_result_strategy r <> None
    & [/\ ret_mode r = args_mode args, ret_dataset r = args_dataset args,
          ret_device r = args_device args
        & [/\ ret_gen_imgs r = args_generate_imgs args,
              ret_save_results r = args_save_results args,
              ret_phased r = args_phased args,
              ret_result_strategy r = args_result_strategy args
            & ret_num_images r = args_num_images args]]].
Proof.
rewrite get_argsE; case: ifP => // _; case: ifP => // /check_seq_prop c2.
case: ifP => // /check_result_strategy c3 [<-] /=; split=> //; split=> //.
case E: (args_seq_prop args) => [sp|] /=; first exact: c2.
exact/py_le_between/default_seq_prop_between.
Qed.

(** X25.  Once parser.parse_args() has returned the Namespace, every
    rejection by the checks of get_args itself goes through
    exit_with_error and ends the program the same way: exit status 1,
    after logging one error message and printing the usage; the message is
    that of the first check that fails, in the order batch size,
    sequential proportion, result strategy.  (A command line that argparse
    refuses ends inside parse_args and is not covered.) *)
Theorem get_args_exit (args : Namespace F) code evs :
  get_args args = SystemExit code evs ->
  code = 1%N
  /\ exists2 msg, evs = [:: LogError msg; PrintHelp]
      & msg
        = if ~~ String.eqb (args_mode args) "batch"
             && isSome (args_batch_size args)
          then "Batch size is not used in sample mode"
          else if (if args_seq_prop args is Some sp
                   then py_le sp (Finite 0) || py_le (Finite 1) sp
                   else false)
          then "Sequential proportion must be between 0 and 1"
          else "Must specify a result strategy if saving results".
Proof.
rewrite get_argsE /exit_with_error.
case: ifP => _; first by case=> <- <-; split=> //; eexists.
case: ifP => _; first by case=> <- <-; split=> //; eexists.
by case: ifP => // _ [<- <-]; split=> //; eexists.
Qed.

End Theory.

(* -------------------------------------------------------------------- *)
(* Closed instances over the rationals.                                  *)

Lemma world_ex_reachable : reachable softsign world_ex.
Proof. exact: (@reach_new rat softsign "tanh" 2 3 "cpu" alpha_ex bias_ex). Qed.

Lemma batch_sample_equiv_one_row_witness :
  1 + (map_mx softsign (x1_ex *m alpha1_ex + rowbc 1 bias1_ex)
       *m (1%:M : 'M[rat]_1)
       *m (map_mx softsign (x1_ex *m alpha1_ex + rowbc 1 bias1_ex))^T) 0 0
  != 0
  /\ seq_phase (mkT x1_ex) "batch" one_world_ex
     = seq_phase (mkT x1_ex) "sample" one_world_ex.
Proof.
have d0 : 1 + (map_mx softsign (x1_ex *m alpha1_ex + rowbc 1 bias1_ex)
               *m (1%:M : 'M[rat]_1)
               *m (map_mx softsign (x1_ex *m alpha1_ex + rowbc 1 bias1_ex))^T)
                0 0 != 0.
  rewrite mulmx1 !mxE big_ord1 !mxE big_ord1 !mxE.
  by rewrite mulr1 addr0 /softsign normr1.
split=> //.
have [_ eqv] := @batch_sample_equiv_one_row rat softsign 1 1 "cpu" alpha1_ex
                  bias1_ex 1%:M 0 [::] x1_ex.
by have [] := eqv d0.
Defined.

(* C2 as the spec states it, for every starting state: with P = -4 and the
   hidden row 1/2 the denominator is zero; batch mode returns (the
   pseudoinverse of the zero matrix is zero) and sample mode divides by
   zero *)
Lemma batch_sample_differ_zero_denominator :
  [/\ exists Beta' w',
        seq_phase (mkT x1_ex) "batch" neg_world_ex = Done Beta' w',
      seq_phase (mkT x1_ex) "sample" neg_world_ex = Lost
    & seq_phase (mkT x1_ex) "batch" neg_world_ex
      <> seq_phase (mkT x1_ex) "sample" neg_world_ex].
Proof.
have L : seq_phase (mkT x1_ex) "sample" neg_world_ex = Lost.
  apply: seq_phase_sample_lost.
  rewrite /denom !(mxE, big_ord1) !mulr1 !addr0 /softsign normr1.
  exact/eqP.
rewrite L /neg_world_ex seq_phase_batchE; split=> //.
by do 2!eexists.
Qed.

Lemma p_symmetric_invariant_witness :
  reachable softsign world_ex /\ sym_state softsign world_ex.
Proof.
split; first exact: world_ex_reachable.
case: (p_symmetric_invariant softsign) => inv _ _.
exact: inv world_ex_reachable.
Defined.

Lemma construction_sigmoid_fails :
  ~ exists m, __init__ softsign "sigmoid" 2 3 "cpu" alpha_ex bias_ex = Ok m.
Proof. by case. Qed.

Lemma width_mismatch_not_assertion :
  ncols wide_ex <> __n_input_nodes (self world_ex)
  /\ (~ exists msg w',
          seq_phase wide_ex "batch" world_ex = Failed (AssertionError msg) w')
  /\ (~ exists msg w',
          seq_phase wide_ex "sample" world_ex = Failed (AssertionError msg) w').
Proof.
by split=> //; split; rewrite seq_phase_neq //; case=> msg [w'].
Qed.

Lemma width_mismatch_runtime_error_witness :
  [/\ ncols wide_ex != 2%N,
      init_phase wide_ex world_ex
      = Failed
          (AssertionError "Input data shape does not match the input nodes")
          (World fresh_ex
             [:: "Input data shape does not match the input nodes"])
    & seq_phase wide_ex "batch" world_ex = Failed shape_error world_ex].
Proof.
have [Ei Es _ _] :=
  @width_mismatch_runtime_error rat softsign 2 3 "cpu" alpha_ex bias_ex
    0 0 [::] wide_ex isT.
by split; [ | exact: Ei | exact: Es].
Defined.

Lemma seq_phase_unsupported_mode_witness :
  [/\ "online" <> "batch", "online" <> "sample"
    & seq_phase row_ex "online" world_ex
      = Failed (ValueError "Mode not supported") world_ex].
Proof.
have nb : "online" <> "batch" by [].
have ns : "online" <> "sample" by [].
split=> //.
case: (@seq_phase_unsupported_mode rat softsign 2 3 "cpu" alpha_ex bias_ex
         0 0 [::] row_ex "online" nb ns) => _.
exact.
Defined.

(* C8 as the spec states it, for every batch: on a batch of the wrong width
   the projection fails before the mode is looked at *)
Lemma unsupported_mode_wide_batch :
  [/\ "online" <> "batch", "online" <> "sample",
      seq_phase wide_ex "online" world_ex = Failed shape_error world_ex
    & ~ exists msg w',
          seq_phase wide_ex "online" world_ex = Failed (ValueError msg) w'].
Proof.
split=> //; first exact: seq_phase_neq.
by rewrite seq_phase_neq //; case=> msg [w'].
Qed.

Lemma fresh_model_predicts_zero_witness :
  __init__ softsign "tanh" 2 3 "cpu" alpha_ex bias_ex = Ok fresh_ex
  /\ predict row_ex world_ex = Done (mkT (0 : 'M[rat]_(1, 2))) world_ex.
Proof.
have E : __init__ softsign "tanh" 2 3 "cpu" alpha_ex bias_ex = Ok fresh_ex.
  by [].
split=> //.
case: (fresh_model_predicts_zero E) => _ _.
exact.
Defined.

Lemma sample_denominator_ge1_witness :
  psd (0 : 'M[rat]_3)
  /\ 1 <= 1 + ((const_mx 1 : 'cV[rat]_3)^T
                *m ((0 : 'M[rat]_3) *m (const_mx 1 : 'cV[rat]_3))) 0 0.
Proof.
split; first exact: psd0.
case: (sample_denominator_ge1 softsign) => ge1 _ _ _ _.
exact/ge1/psd0.
Defined.

(* Small runs of the embedding on concrete inputs. *)

Example bdim_examples :
  [/\ bdim 3 3 = Some 3%N, bdim 3 1 = Some 3%N, bdim 1 5 = Some 5%N
    & bdim 3 2 = None].
Proof. by []. Qed.

Example matmul_shape_error :
  matmul wide_ex (mkT alpha_ex) = Raise shape_error.
Proof. exact: matmul_neq. Qed.

Example assert_cond_logs :
  assert_cond false "Input data shape does not match the input nodes" world_ex
  = Failed (AssertionError "Input data shape does not match the input nodes")
      (World fresh_ex [:: "Input data shape does not match the input nodes"]).
Proof. by []. Qed.

Example sample_mode_two_rows :
  seq_phase (mkT (const_mx 1 : 'M[rat]_(2, 2))) "sample" world_ex
  = Failed shape_error world_ex.
Proof. exact: seq_phase_sample_rows. Qed.

(* -------------------------------------------------------------------- *)
(* Closed instances of the further properties.                           *)

Lemma evaluate_zero_iff_witness :
  [/\ (0 < 1)%N, (0 < 2)%N
    & evaluate (mkT (const_mx 1 : 'M[rat]_(1, 2)))
               (mkT (const_mx 2%:R : 'M[rat]_(1, 2)))
      = Ok ((\sum_(i < 1) \sum_(j < 2)
               ((const_mx 1 : 'M[rat]_(1, 2)) i j
                - (const_mx 2%:R : 'M[rat]_(1, 2)) i j) ^+ 2)
            / (1 * 2)%:R, 0%N)].
Proof.
split; [by [] | by [] |].
by have [] := @evaluate_zero_iff rat 1 2 (const_mx 1) (const_mx 2%:R) isT isT.
Defined.

Lemma init_then_predict_exact_witness :
  (0 : 'M[rat]_(2, 2))
  = map_mx softsign (0 *m alpha_ex + rowbc 2 bias_ex) *m (0 : 'M[rat]_(3, 2))
  /\ exists w1 Beta1,
       init_phase (mkT (0 : 'M[rat]_(2, 2))) world_ex = Done Beta1 w1
       /\ predict (mkT (0 : 'M[rat]_(2, 2))) w1
          = Done (mkT (0 : 'M[rat]_(2, 2))) w1.
Proof.
have E : (0 : 'M[rat]_(2, 2))
         = map_mx softsign (0 *m alpha_ex + rowbc 2 bias_ex)
           *m (0 : 'M[rat]_(3, 2)) by rewrite mulmx0.
split=> //.
exact: (@init_then_predict_exact rat softsign 2 3 "cpu" alpha_ex bias_ex
          0 0 [::] 2 0 0 E).
Defined.

Lemma init_minimises_loss_witness :
  [/\ (0 < 1)%N, (0 < 2)%N
    & exists w1 Beta1 Y loss,
        [/\ init_phase row_ex world_ex = Done Beta1 w1,
            predict row_ex w1 = Done Y w1
          & evaluate row_ex Y = Ok (loss, 0%N)]].
Proof.
split=> //.
have [w1 [Beta1 [Y [loss [E1 E2 E3 _]]]]] :=
  @init_minimises_loss rat softsign 2 3 "cpu" alpha_ex bias_ex 0 0 [::]
    1 (const_mx 1) isT isT.
by exists w1, Beta1, Y, loss.
Defined.

Lemma sample_update_formula_witness :
  exists Beta' w', seq_phase row_ex "sample" world_ex = Done Beta' w'.
Proof.
have [ok _] := @sample_update_formula rat softsign 2 3 "cpu" alpha_ex bias_ex
                 0 0 [::] (const_mx 1).
do 2!eexists; apply: ok.
by rewrite mulmx0 mul0mx mxE addr0.
Defined.

Lemma sample_mode_many_rows_witness :
  [/\ 2%N != 1%N, 2%N != 3%N, 3%N != 1%N
    & seq_phase (mkT (const_mx 1 : 'M[rat]_(2, 2))) "sample" world_ex
      = Failed shape_error world_ex].
Proof.
split=> //.
exact: (@sample_mode_many_rows rat softsign 2 3 "cpu" alpha_ex bias_ex
          0 0 [::] 2 (const_mx 1) isT isT isT).
Defined.

Lemma sample_mode_hidden_rows_witness :
  (forall i j : 'I_3,
     1 + (map_mx softsign (square_ex *m alpha_ex + rowbc 3 bias_ex)
          *m (0 : 'M[rat]_3)
          *m (map_mx softsign (square_ex *m alpha_ex + rowbc 3 bias_ex))^T)
           i j != 0)
  /\ exists Beta' w', seq_phase (mkT square_ex) "sample" world_ex
                      = Done Beta' w'.
Proof.
have d0 : forall i j : 'I_3,
    1 + (map_mx softsign (square_ex *m alpha_ex + rowbc 3 bias_ex)
         *m (0 : 'M[rat]_3)
         *m (map_mx softsign (square_ex *m alpha_ex + rowbc 3 bias_ex))^T)
          i j != 0.
  by move=> i j; rewrite mulmx0 mul0mx mxE addr0.
split=> //; do 2!eexists.
exact: (@sample_mode_hidden_rows rat softsign 2 3 "cpu" alpha_ex bias_ex
          0 0 [::] square_ex d0).
Defined.

Lemma seq_phase_atomic_witness :
  seq_phase wide_ex "batch" world_ex = Failed shape_error world_ex
  /\ world_ex = world_ex.
Proof.
have E : seq_phase wide_ex "batch" world_ex = Failed shape_error world_ex.
  exact: seq_phase_neq.
split; first exact: E.
exact: (@seq_phase_atomic rat softsign 2 3 "cpu" alpha_ex bias_ex 0 0 [::]
          wide_ex "batch" shape_error world_ex E).
Defined.

Lemma reachable_shapes_witness :
  exists w1 w2,
    [/\ final (init_phase row_ex world_ex) = Some w1,
        final (seq_phase (mkT square_ex) "batch" w1) = Some w2,
        attainable softsign w2
      & (nrows (__p (self w2)), ncols (__p (self w2)))
        = (__n_hidden_nodes (self w2), __n_hidden_nodes (self w2))].
Proof.
have a0 : attainable softsign world_ex.
  exact: (@attain_new rat softsign "tanh" 2 3 "cpu" alpha_ex bias_ex).
have [w1 E1] : exists w1, final (init_phase row_ex world_ex) = Some w1.
  by rewrite /row_ex /world_ex /fresh_ex init_phaseE; eexists.
have a1 := attain_init_phase a0 E1.
have [w2 E2] :
    exists w2, final (seq_phase (mkT square_ex) "batch" w1) = Some w2.
  move: E1; rewrite /row_ex /world_ex /fresh_ex init_phaseE => -[<-].
  by rewrite seq_phase_batchE; eexists.
have a2 := attain_seq_phase a1 E2.
have [_ _ _ sP _] := reachable_shapes a2.
by exists w1, w2; split.
Defined.

Lemma batch_split_witness :
  psd (0 : 'M[rat]_3)
  /\ exists Beta1 w1 Beta2 w2,
       [/\ seq_phase row_ex "batch" world_ex = Done Beta1 w1,
           seq_phase row_ex "batch" w1 = Done Beta2 w2
         & seq_phase (mkT (col_mx (const_mx 1 : 'rV[rat]_2)
                                    (const_mx 1 : 'rV[rat]_2)))
             "batch" world_ex = Done Beta2 w2].
Proof.
split; first exact: psd0.
exact: (@batch_split rat softsign 2 3 "cpu" alpha_ex bias_ex 0 0 [::]
          1 1 (const_mx 1) (const_mx 1) (@psd0 rat 3)).
Defined.

Lemma batch_order_irrelevant_witness :
  psd (0 : 'M[rat]_3)
  /\ exists Beta1 w1 Beta1' w1' Beta2 w2,
       [/\ seq_phase row_ex "batch" world_ex = Done Beta1 w1,
           seq_phase (mkT square_ex) "batch" w1 = Done Beta2 w2,
           seq_phase (mkT square_ex) "batch" world_ex = Done Beta1' w1'
         & seq_phase row_ex "batch" w1' = Done Beta2 w2].
Proof.
split; first exact: psd0.
exact: (@batch_order_irrelevant rat softsign 2 3 "cpu" alpha_ex bias_ex
          0 0 [::] 1 3 (const_mx 1) square_ex (@psd0 rat 3)).
Defined.

Lemma sequential_equals_retraining_witness :
  (map_mx softsign (x1_ex *m alpha1_ex + rowbc 1 bias1_ex))^T
    *m map_mx softsign (x1_ex *m alpha1_ex + rowbc 1 bias1_ex) \in unitmx
  /\ exists Beta0 w0 Beta1 w1,
       let w := World (model softsign "cpu" alpha1_ex bias1_ex 0 0) [::] in
       [/\ init_phase (mkT x1_ex) w = Done Beta0 w0,
           seq_phase (mkT x1_ex) "batch" w0 = Done Beta1 w1
         & init_phase (mkT (col_mx x1_ex x1_ex)) w = Done Beta1 w1].
Proof.
have uG : (map_mx softsign (x1_ex *m alpha1_ex + rowbc 1 bias1_ex))^T
            *m map_mx softsign (x1_ex *m alpha1_ex + rowbc 1 bias1_ex)
          \in unitmx.
  rewrite unitmxE det_mx11 unitfE !mxE big_ord1 !mxE big_ord1 !mxE.
  by rewrite mulr1 addr0 /softsign normr1.
split=> //.
exact: (@sequential_equals_retraining rat softsign 1 1 "cpu" alpha1_ex
          bias1_ex 0 0 [::] 1 1 x1_ex x1_ex uG).
Defined.

Lemma batch_information_form_witness :
  [/\ psd (1%:M : 'M[rat]_3), (1%:M : 'M[rat]_3) *m 1%:M = 1%:M
    & exists (Beta_new : 'M[rat]_(3, 2)) (P_new : 'M[rat]_3),
        seq_phase row_ex "batch"
          (World (model softsign "cpu" alpha_ex bias_ex 1%:M 0) [::])
        = Done (mkT Beta_new)
            (World (model softsign "cpu" alpha_ex bias_ex P_new Beta_new) [::])
        /\ P_new
           *m (1%:M
               + (map_mx softsign (const_mx 1 *m alpha_ex + rowbc 1 bias_ex))^T
                 *m map_mx softsign (const_mx 1 *m alpha_ex + rowbc 1 bias_ex))
           = 1%:M].
Proof.
split; [exact: psd1 | exact: mulmx1 |].
exact: (@batch_information_form rat softsign 2 3 "cpu" alpha_ex bias_ex
          1%:M 0 [::] 1 (const_mx 1) 1%:M (@psd1 rat 3) (mulmx1 _)).
Defined.

Lemma batch_update_shrinks_P_witness :
  [/\ symmetric (0 : 'M[rat]_3), psd (0 : 'M[rat]_3)
    & exists (Beta_new : 'M[rat]_(3, 2)) (P_new : 'M[rat]_3),
        seq_phase row_ex "batch" world_ex
        = Done (mkT Beta_new)
            (World (model softsign "cpu" alpha_ex bias_ex P_new Beta_new) [::])
        /\ forall x : 'rV[rat]_3,
             0 <= (x *m P_new *m x^T) 0 0 <= (x *m 0 *m x^T) 0 0].
Proof.
split; [exact: sym0 | exact: psd0 |].
exact: (@batch_update_shrinks_P rat softsign 2 3 "cpu" alpha_ex bias_ex
          0 0 [::] 1 (const_mx 1) (@sym0 rat 3) (@psd0 rat 3)).
Defined.

Lemma get_args_result_witness :
  let r := mkArguments "batch" "mnist" 10 "cpu" (Finite (1 / 2%:R : rat))
             false true false (Some "all") 5 in
  get_args args_ex = Returned r
  /\ (ret_save_results r -> ret_result_strategy r <> None).
Proof.
move=> r; have E : get_args args_ex = Returned r by [].
split; first exact: E.
by have [_ _ ok _] := get_args_result E.
Defined.

Lemma get_args_exit_witness :
  get_args args_sample_ex
  = SystemExit 1 [:: LogError "Batch size is not used in sample mode";
                     PrintHelp]
  /\ 1%N = 1%N.
Proof.
have E : get_args args_sample_ex
         = SystemExit 1 [:: LogError "Batch size is not used in sample mode";
                            PrintHelp] by [].
split; first exact: E.
by have [] := get_args_exit E.
Defined.
